(** * The DWB footprint collision checker

    A shallow embedding of [dwb_critics/src/collision_checker.cpp]
    (class [CollisionChecker]) together with the pieces of the repository it
    calls: the grid line rasterizer, the footprint transform and the
    collaborator interfaces (costmap, footprint provider, pose lookup).

    Layout: machine integers, the effect monad (event trace, exceptions,
    divergence), the line iterator, the footprint geometry, the checker
    itself, two interpretations of the arithmetic (exact reals, and the
    integer lattice used for concrete runs), then the theorems. *)

From Stdlib Require Import ZArith List String Bool Lia Reals Lra.
Import ListNotations.

Local Open Scope string_scope.
Local Open Scope list_scope.
Local Open Scope Z_scope.

(** ** Machine integers *)

(** [unsigned int]: 32 bits, arithmetic modulo [2^32]. *)
Definition wrap_unsigned (z : Z) : Z := z mod 2 ^ 32.

(** Conversion of an [unsigned int] argument to an [int] parameter
    (two's complement), as in the calls [lineCost(x0, x1, y0, y1)]. *)
Definition to_int (u : Z) : Z := (u + 2 ^ 31) mod 2 ^ 32 - 2 ^ 31.

(** [unsigned char]: 8 bits. *)
Definition to_unsigned_char (z : Z) : Z := z mod 2 ^ 8.

(** [footprint.size() - 1] computed in [size_t] (64 bits).  A vector's size is
    below [2^64], so the subtraction wraps at size 0 only, where it yields
    [2^64 - 1]. *)
Definition size_minus_one (size : Z) : Z :=
  if size =? 0 then 2 ^ 64 - 1 else size - 1.

(** ** Exceptions, events and the effect monad *)

(** Modelled from the spec: [dwb_core/exceptions.hpp] is not among the
    sources.  Section 7 names the two recoverable kinds; each constructor
    takes what [collision_checker.cpp] passes to it.  Besides them a call can
    end with [std::runtime_error], and with [OutOfRange], which stands for an
    access to a vector element that does not exist. *)
Inductive exn : Type :=
| IllegalTrajectoryException (critic_name description : string)
| PlannerException (description : string)
| runtime_error (what_arg : string)
| OutOfRange.

(** [e.what()]: the description the exception was built with. *)
Definition what (e : exn) : string :=
  match e with
  | IllegalTrajectoryException _ d => d
  | PlannerException d => d
  | runtime_error w => w
  | OutOfRange => "out of range"
  end.

Inductive severity : Type := DEBUG | ERROR.

Inductive logarg : Type :=
| ArgInt (z : Z)
| ArgStr (s : string)
| ArgUnset.   (* a variable printed although nothing was stored in it *)

(** What a call does besides computing its result: it reads costmap cells
    and writes to the node's logger. *)
Inductive Event : Type :=
| GetCost (mx my : Z)
| Log (lvl : severity) (fmt : string) (args : list logarg).

Inductive outcome (A : Type) : Type :=
| Return (a : A)
| Throw (e : exn)
| Diverge.

Arguments Return {A} a.
Arguments Throw {A} e.
Arguments Diverge {A}.

(** A computation: the events it performed, in order, and how it ended. *)
Definition M (A : Type) : Type := (list Event * outcome A)%type.

Definition ret {A} (a : A) : M A := ([], Return a).
Definition throw {A} (e : exn) : M A := ([], Throw e).
Definition diverge {A} : M A := ([], Diverge).
Definition emit (ev : Event) : M unit := ([ev], Return tt).

Definition bind {A B} (m : M A) (k : A -> M B) : M B :=
  match m with
  | (t, Return a) => let (t', r) := k a in (t ++ t', r)
  | (t, Throw e) => (t, Throw e)
  | (t, Diverge) => (t, Diverge)
  end.

Notation "x <- c1 ;; c2" := (bind c1 (fun x => c2))
  (at level 61, c1 at next level, right associativity).
Notation "c1 ;;; c2" := (bind c1 (fun _ => c2))
  (at level 61, right associativity).

(** [try { m } catch (e) { handler }]: a handler that returns [None] does
    not match the exception, which then propagates. *)
Definition try_catch {A} (m : M A) (handler : exn -> option (M A)) : M A :=
  match m with
  | (t, Throw e) =>
      match handler e with
      | Some h => let (t', r) := h in (t ++ t', r)
      | None => (t, Throw e)
      end
  | _ => m
  end.

Definition events {A} (m : M A) : list Event := fst m.
Definition result {A} (m : M A) : outcome A := snd m.

Definition RCLCPP_ERROR (fmt : string) (args : list logarg) : M unit :=
  emit (Log ERROR fmt args).
Definition RCLCPP_DEBUG (fmt : string) (args : list logarg) : M unit :=
  emit (Log DEBUG fmt args).

(** ** Grid line rasterizer *)

Module LineIterator.

(** Modelled from the spec: [dwb_critics/line_iterator.hpp], the class
    [LineIterator] that [lineCost] drives through its constructor, [isValid],
    [advance], [getX] and [getY], is not among the sources.  The spec
    (section 4.1) describes the standard integer line traversal: choose the
    dominant axis (larger absolute delta), step one unit per iteration along
    it, accumulate an error term for the minor axis in an integer
    accumulator, and step the minor axis whenever the accumulated error
    crosses a cell boundary; the sequence includes both endpoints.  The
    accumulator [num] counts in units of [1/den] of a cell and starts half a
    cell in, so that reaching [den] is the crossing of the boundary between
    two cells.  The spec gives neither the start of the accumulator nor the
    side on which a step that lands exactly half-way between two cells
    falls; starting at [den / 2] in both directions and stepping at
    [num >= den] is a choice of this model, and the facts below that depend
    on it ([tie_free] and what follows from it) are facts of the model
    only. *)
Record t : Type := mk {
  x : Z;                 (* current cell *)
  y : Z;
  x_dominant : bool;     (* the dominant axis is x *)
  xinc : Z;              (* direction of travel on each axis, +1 or -1 *)
  yinc : Z;
  den : Z;               (* delta along the dominant axis *)
  numadd : Z;            (* delta along the minor axis *)
  num : Z;               (* error accumulator *)
  numpixels : Z;         (* number of steps along the dominant axis *)
  curpixel : Z
}.

(** Modelled from the spec: the constructor.  The dominant axis is the one
    with the larger absolute delta (x when the two are equal); the direction
    on each axis points from the first endpoint to the second. *)
Definition make (x0 y0 x1 y1 : Z) : t :=
  let deltax := Z.abs (x1 - x0) in
  let deltay := Z.abs (y1 - y0) in
  let xi := if x0 <=? x1 then 1 else -1 in
  let yi := if y0 <=? y1 then 1 else -1 in
  if deltay <=? deltax
  then mk x0 y0 true xi yi deltax deltay (deltax / 2) deltax 0
  else mk x0 y0 false xi yi deltay deltax (deltay / 2) deltay 0.

(** Modelled from the spec: the sequence is finite and includes both
    endpoints, [numpixels + 1] cells in all. *)
Definition isValid (l : t) : bool := curpixel l <=? numpixels l.

Definition getX (l : t) : Z := x l.
Definition getY (l : t) : Z := y l.

(** Modelled from the spec: one unit along the dominant axis per step; the
    accumulator grows by the minor delta and, when it reaches [den], the
    minor axis steps and [den] is taken off. *)
Definition advance (l : t) : t :=
  let n := num l + numadd l in
  let crossed := den l <=? n in
  let n' := if crossed then n - den l else n in
  let minor := if crossed then 1 else 0 in
  if x_dominant l
  then mk (x l + xinc l) (y l + minor * yinc l) true (xinc l) (yinc l)
          (den l) (numadd l) n' (numpixels l) (curpixel l + 1)
  else mk (x l + minor * xinc l) (y l + yinc l) false (xinc l) (yinc l)
          (den l) (numadd l) n' (numpixels l) (curpixel l + 1).

(** The loop [for (LineIterator line(..); line.isValid(); line.advance())],
    collecting the cells it visits; [None] when the fuel runs out first. *)
Fixpoint run (fuel : nat) (l : t) : option (list (Z * Z)) :=
  if isValid l then
    match fuel with
    | O => None
    | S fuel' =>
        match run fuel' (advance l) with
        | Some cells => Some ((getX l, getY l) :: cells)
        | None => None
        end
    end
  else Some [].

(** Iterations the loop can take from state [l]. *)
Definition fuel_for (l : t) : nat := Z.to_nat (numpixels l + 1 - curpixel l).

Definition rasterize (x0 y0 x1 y1 : Z) : option (list (Z * Z)) :=
  let l := make x0 y0 x1 y1 in run (fuel_for l) l.

End LineIterator.

(** ** Arithmetic on world coordinates *)

(** The operations on [double] that the checker and the footprint transform
    use.  The checker itself never inspects a coordinate: it hands them to the
    costmap's [worldToMap].  The algebraic laws of the transform are stated
    for the interpretation in the real numbers, [real_ops] below. *)
Class DoubleOps (D : Type) : Type := {
  dzero : D;
  dadd : D -> D -> D;
  dsub : D -> D -> D;
  dmul : D -> D -> D;
  dneg : D -> D;
  dcos : D -> D;
  dsin : D -> D
}.

Section Checker.

Context {D : Type} {ops : DoubleOps D}.

(** [nav2_costmap_2d::LETHAL_OBSTACLE] and [nav2_costmap_2d::NO_INFORMATION],
    the two [unsigned char] constants of [cost_values.hpp]. *)
Variables LETHAL_OBSTACLE NO_INFORMATION : Z.

(** *** Data *)

(** [geometry_msgs::msg::Point], in the plane. *)
Record Point : Type := { point_x : D; point_y : D }.

(** [geometry_msgs::msg::Pose2D]. *)
Record Pose2D : Type := { pose_x : D; pose_y : D; pose_theta : D }.

Definition Footprint : Type := list Point.

(** Modelled from the spec: [nav2_costmap_2d::Costmap2D] is not among the
    sources.  Section 6 gives what the checker uses of it: the conversion of
    a world point to a cell, which fails out of bounds ([None] where the C++
    method returns false), and the value stored in a cell. *)
Record Costmap2D : Type := {
  worldToMap : D -> D -> option (Z * Z);
  getCost : Z -> Z -> Z
}.

(** What [tf_buffer_.transform] does when asked for the robot's pose in the
    global frame (section 6, pose-lookup service): it yields the pose, of
    which the checker reads the position and the yaw, or throws one of the
    three tf2 exceptions that [getRobotPose] catches.  Any other exception
    of the transform is not caught by [getRobotPose] and would leave
    [scorePose] and [isCollisionFree] as it is; such a run is outside this
    model, and what is proved below about a failed lookup is about these
    three kinds. *)
Inductive tf_result : Type :=
| Transformed (x y yaw : D)
| LookupException (w : string)
| ConnectivityException (w : string)
| ExtrapolationException (w : string).

(** The collaborators held by a [CollisionChecker] and its own name.
    [getCostmap = inl w] is a costmap subscriber that throws
    [std::runtime_error(w)]; [getFootprint = None] is a footprint subscriber
    that returns false. *)
Record Collaborators : Type := {
  getCostmap : string + Costmap2D;
  getFootprint : option Footprint;
  tf_transform : tf_result;
  name_ : string
}.

(** *** Footprint transform *)

(** The two rigid motions that the footprint transform composes. *)
Definition rotate (theta : D) (p : Point) : Point :=
  {| point_x := dsub (dmul (point_x p) (dcos theta)) (dmul (point_y p) (dsin theta));
     point_y := dadd (dmul (point_x p) (dsin theta)) (dmul (point_y p) (dcos theta)) |}.

Definition translate (dx dy : D) (p : Point) : Point :=
  {| point_x := dadd dx (point_x p); point_y := dadd dy (point_y p) |}.

(** Modelled from the spec: [nav2_costmap_2d::transformFootprint]
    ([footprint.cpp]) is not among the sources.  Section 4.2, Project:
    rotate every vertex by [theta], then translate it by [(x, y)]. *)
Definition transformFootprint (x y theta : D) (footprint_spec : Footprint)
  : Footprint :=
  map (fun p => translate x y (rotate theta p)) footprint_spec.

(** *** The checker *)

Variable self : Collaborators.

Definition getRobotPose : M (option Pose2D) :=
  match tf_transform self with
  | Transformed x y yaw =>
      ret (Some {| pose_x := x; pose_y := y; pose_theta := yaw |})
  | LookupException w =>
      RCLCPP_ERROR "No Transform available Error looking up robot pose: %s\n"
                   [ArgStr w] ;;;
      ret None
  | ConnectivityException w =>
      RCLCPP_ERROR "Connectivity Error looking up robot pose: %s\n" [ArgStr w] ;;;
      ret None
  | ExtrapolationException w =>
      RCLCPP_ERROR "Extrapolation Error looking up robot pose: %s\n" [ArgStr w] ;;;
      ret None
  end.

Definition unorientFootprint (oriented_footprint : Footprint) : M Footprint :=
  current_pose <- getRobotPose ;;
  match current_pose with
  | None => throw (PlannerException "Robot pose unavailable.")
  | Some current_pose =>
      let x := pose_x current_pose in
      let y := pose_y current_pose in
      let theta := pose_theta current_pose in
      let temp := transformFootprint (dneg x) (dneg y) dzero oriented_footprint in
      ret (transformFootprint dzero dzero (dneg theta) temp)
  end.

(** [costmap_sub_->getCostmap()], which throws [std::runtime_error]. *)
Definition costmap_sub_getCostmap : M Costmap2D :=
  match getCostmap self with
  | inl w => throw (runtime_error w)
  | inr c => ret c
  end.

Definition pointCost (x y : Z) : M Z :=
  costmap_ <- costmap_sub_getCostmap ;;
  let mx := wrap_unsigned x in
  let my := wrap_unsigned y in
  emit (GetCost mx my) ;;;
  let cost := to_unsigned_char (getCost costmap_ mx my) in
  if cost =? LETHAL_OBSTACLE then
    RCLCPP_DEBUG "Map Cell: [%d, %d]" [ArgInt x; ArgInt y] ;;;
    throw (IllegalTrajectoryException (name_ self) "Trajectory Hits Obstacle.")
  else if cost =? NO_INFORMATION then
    RCLCPP_DEBUG "Map Cell: [%d, %d]" [ArgInt x; ArgInt y] ;;;
    throw (IllegalTrajectoryException (name_ self) "Trajectory Hits Unknown Region.")
  else ret cost.

(** The loop of [lineCost]. *)
Fixpoint lineCost_loop (fuel : nat) (line : LineIterator.t) (line_cost : Z)
  : M Z :=
  if LineIterator.isValid line then
    match fuel with
    | O => diverge
    | S fuel' =>
        point_cost <- pointCost (LineIterator.getX line) (LineIterator.getY line) ;;
        let line_cost := if line_cost <? point_cost then point_cost else line_cost in
        lineCost_loop fuel' (LineIterator.advance line) line_cost
    end
  else ret line_cost.

Definition lineCost (x0 x1 y0 y1 : Z) : M Z :=
  let line := LineIterator.make x0 y0 x1 y1 in
  lineCost_loop (LineIterator.fuel_for line) line 0.

(** [footprint[i]]. *)
Definition at_index (footprint : Footprint) (i : Z) : M Point :=
  match nth_error footprint (Z.to_nat i) with
  | Some p => ret p
  | None => throw OutOfRange
  end.

(** [footprint.back()] and [footprint.front()]. *)
Definition back (footprint : Footprint) : M Point :=
  match footprint with
  | [] => throw OutOfRange
  | p :: rest => ret (last rest p)
  end.

Definition front (footprint : Footprint) : M Point :=
  match footprint with
  | [] => throw OutOfRange
  | p :: _ => ret p
  end.

(** [costmap_->worldToMap(p.x, p.y, x, y)] for a footprint vertex, with the
    failure branch that follows it. *)
Definition vertexToMap (costmap_ : Costmap2D) (p : Point) (msg : string)
  : M (Z * Z) :=
  match worldToMap costmap_ (point_x p) (point_y p) with
  | Some c => ret c
  | None =>
      RCLCPP_DEBUG "Map Cell: [%d, %d]" [ArgUnset; ArgUnset] ;;;
      throw (IllegalTrajectoryException (name_ self) msg)
  end.

(** The loop [for (unsigned int i = 0; i < footprint.size() - 1; ++i)]. *)
Fixpoint scorePose_loop (costmap_ : Costmap2D) (footprint : Footprint)
  (fuel : nat) (i : Z) (footprint_cost : Z) : M Z :=
  if i <? size_minus_one (Z.of_nat (List.length footprint)) then
    match fuel with
    | O => diverge
    | S fuel' =>
        p0 <- at_index footprint i ;;
        c0 <- vertexToMap costmap_ p0 "Footprint Goes Off Grid at map." ;;
        p1 <- at_index footprint (wrap_unsigned (i + 1)) ;;
        c1 <- vertexToMap costmap_ p1 "Footprint Goes Off Grid." ;;
        line_cost <- lineCost (to_int (fst c0)) (to_int (fst c1))
                              (to_int (snd c0)) (to_int (snd c1)) ;;
        scorePose_loop costmap_ footprint fuel' (wrap_unsigned (i + 1))
                       (Z.max line_cost footprint_cost)
    end
  else ret footprint_cost.

(** The second half of [scorePose] (from "now we really have to lay down the
    footprint in the costmap grid" on): the edges between consecutive
    vertices, then the edge that connects the last vertex to the first. *)
Definition scorePose_edges (costmap_ : Costmap2D) (footprint : Footprint)
  : M Z :=
  footprint_cost <- scorePose_loop costmap_ footprint
                                   (S (List.length footprint)) 0 0 ;;
  p0 <- back footprint ;;
  c0 <- vertexToMap costmap_ p0 "Footprint Goes Off Grid." ;;
  p1 <- front footprint ;;
  c1 <- vertexToMap costmap_ p1 "Footprint Goes Off Grid." ;;
  line_cost <- lineCost (to_int (fst c0)) (to_int (fst c1))
                        (to_int (snd c0)) (to_int (snd c1)) ;;
  ret (Z.max line_cost footprint_cost).

Definition scorePose (pose : Pose2D) : M Z :=
  costmap_ <- try_catch costmap_sub_getCostmap
                (fun e => match e with
                          | runtime_error w => Some (throw (PlannerException w))
                          | _ => None
                          end) ;;
  match worldToMap costmap_ (pose_x pose) (pose_y pose) with
  | None =>
      RCLCPP_ERROR "Map Cell: [%d, %d]" [ArgUnset; ArgUnset] ;;;
      throw (IllegalTrajectoryException (name_ self) "Trajectory Goes Off Grid.")
  | Some _ =>
      match getFootprint self with
      | None => throw (PlannerException "Footprint not available.")
      | Some footprint =>
          footprint_spec <- unorientFootprint footprint ;;
          let footprint :=
            transformFootprint (pose_x pose) (pose_y pose) (pose_theta pose)
                               footprint_spec in
          scorePose_edges costmap_ footprint
      end
  end.

Definition isCollisionFree (pose : Pose2D) : M bool :=
  try_catch
    (score <- scorePose pose ;;
     if score <? 0 then ret false else ret true)
    (fun e => match e with
              | IllegalTrajectoryException _ _ =>
                  Some (RCLCPP_ERROR "%s" [ArgStr (what e)] ;;; ret false)
              | PlannerException _ =>
                  Some (RCLCPP_ERROR "%s" [ArgStr (what e)] ;;; ret false)
              | _ => None
              end).

End Checker.

(** ** Interpretations of the arithmetic *)

(** Exact real arithmetic: the laws of the footprint transform are proved
    for it. *)
#[export] Instance real_ops : DoubleOps R := {|
  dzero := 0%R;
  dadd := Rplus;
  dsub := Rminus;
  dmul := Rmult;
  dneg := Ropp;
  dcos := cos;
  dsin := sin
|}.

(** The integer lattice with headings counted in quarter turns: exact, and
    it computes, so concrete runs of the checker can be evaluated. *)
Definition quarter_cos (q : Z) : Z :=
  match q mod 4 with 0 => 1 | 2 => -1 | _ => 0 end.
Definition quarter_sin (q : Z) : Z :=
  match q mod 4 with 1 => 1 | 3 => -1 | _ => 0 end.

#[export] Instance lattice_ops : DoubleOps Z := {|
  dzero := 0;
  dadd := Z.add;
  dsub := Z.sub;
  dmul := Z.mul;
  dneg := Z.opp;
  dcos := quarter_cos;
  dsin := quarter_sin
|}.

(** ** Vocabulary of the statements *)

(** *** Rasterizer *)

(** The state of a line iterator [k] steps after [l0], in closed form: the
    dominant coordinate has moved [k] cells, the minor one
    [(num + k * numadd) / den] cells. *)
Definition line_offset (l0 : LineIterator.t) (k : Z) : Z :=
  (LineIterator.num l0 + k * LineIterator.numadd l0) / LineIterator.den l0.

Definition line_at (l0 : LineIterator.t) (k : Z) : LineIterator.t :=
  let off := line_offset l0 k in
  let n := (LineIterator.num l0 + k * LineIterator.numadd l0)
             mod LineIterator.den l0 in
  if LineIterator.x_dominant l0
  then LineIterator.mk
         (LineIterator.x l0 + k * LineIterator.xinc l0)
         (LineIterator.y l0 + off * LineIterator.yinc l0)
         true (LineIterator.xinc l0) (LineIterator.yinc l0)
         (LineIterator.den l0) (LineIterator.numadd l0) n
         (LineIterator.numpixels l0) (LineIterator.curpixel l0 + k)
  else LineIterator.mk
         (LineIterator.x l0 + off * LineIterator.xinc l0)
         (LineIterator.y l0 + k * LineIterator.yinc l0)
         false (LineIterator.xinc l0) (LineIterator.yinc l0)
         (LineIterator.den l0) (LineIterator.numadd l0) n
         (LineIterator.numpixels l0) (LineIterator.curpixel l0 + k).

Definition line_cell (l : LineIterator.t) : Z * Z :=
  (LineIterator.getX l, LineIterator.getY l).

Definition line_major (x0 y0 x1 y1 : Z) : Z :=
  Z.max (Z.abs (x1 - x0)) (Z.abs (y1 - y0)).
Definition line_minor (x0 y0 x1 y1 : Z) : Z :=
  Z.min (Z.abs (x1 - x0)) (Z.abs (y1 - y0)).

(** After [k] steps the ideal segment passes exactly half-way between two
    cells of the minor axis. *)
Definition exact_tie (major minor k : Z) : bool :=
  (0 <? major) && (2 * ((k * minor) mod major) =? major).

Definition tie_free (x0 y0 x1 y1 : Z) : bool :=
  let major := line_major x0 y0 x1 y1 in
  let minor := line_minor x0 y0 x1 y1 in
  forallb (fun k => negb (exact_tie major minor (Z.of_nat k)))
          (seq 0 (S (Z.to_nat major))).

(** A well-formed fresh iterator: what [LineIterator.make] builds. *)
Definition fresh (l0 : LineIterator.t) : Prop :=
  LineIterator.curpixel l0 = 0 /\
  LineIterator.numpixels l0 = LineIterator.den l0 /\
  0 <= LineIterator.numadd l0 <= LineIterator.den l0 /\
  (0 <= LineIterator.num l0 < LineIterator.den l0 \/ LineIterator.den l0 = 0).

(** The cells of a segment in closed form. *)
Definition line_cells (x0 y0 x1 y1 : Z) : list (Z * Z) :=
  map (fun j => line_cell (line_at (LineIterator.make x0 y0 x1 y1) (Z.of_nat j)))
      (seq 0 (S (Z.to_nat (line_major x0 y0 x1 y1)))).

(** Direction of travel from [a] to [b]. *)
Definition direction (a b : Z) : Z := if a <=? b then 1 else -1.

(** Cells moved along the minor axis after [k] steps. *)
Definition minor_offset (major minor k : Z) : Z := (major / 2 + k * minor) / major.

(** Cells of a segment whose dominant coordinate is the first one. *)
Definition dominant_cells (a0 b0 a1 b1 : Z) : list (Z * Z) :=
  let major := Z.abs (a1 - a0) in
  let minor := Z.abs (b1 - b0) in
  map (fun j => (a0 + Z.of_nat j * direction a0 a1,
                 b0 + minor_offset major minor (Z.of_nat j) * direction b0 b1))
      (seq 0 (S (Z.to_nat major))).

Definition swap_xy (c : Z * Z) : Z * Z := (snd c, fst c).

(** [v'] follows [v] on the way from [a] to [b]: it stays or moves one
    cell towards [b]. *)
Definition towards (a b v v' : Z) : Prop :=
  (a <= b -> v <= v' <= v + 1) /\ (b <= a -> v - 1 <= v' <= v).

Fixpoint monotone_path (x0 y0 x1 y1 : Z) (cells : list (Z * Z)) : Prop :=
  match cells with
  | c :: ((c' :: _) as rest) =>
      towards x0 x1 (fst c) (fst c') /\ towards y0 y1 (snd c) (snd c') /\
      monotone_path x0 y0 x1 y1 rest
  | _ => True
  end.

(** A traversal of the segment from [(x0, y0)] to [(x1, y1)]: it starts at
    the first endpoint, ends at the second, never visits a cell twice and
    moves monotonically. *)
Definition traversal (x0 y0 x1 y1 : Z) (cells : list (Z * Z)) : Prop :=
  hd_error cells = Some (x0, y0) /\
  last cells (x0, y0) = (x1, y1) /\
  NoDup cells /\
  monotone_path x0 y0 x1 y1 cells.

(** *** Checker *)

Section CheckerVocabulary.

Context {D : Type} {ops : DoubleOps D}.
Variables LETHAL_OBSTACLE NO_INFORMATION : Z.

Definition is_sentinel (cost : Z) : bool :=
  (cost =? LETHAL_OBSTACLE) || (cost =? NO_INFORMATION).

Definition sentinel_message (cost : Z) : string :=
  if cost =? LETHAL_OBSTACLE then "Trajectory Hits Obstacle."
  else "Trajectory Hits Unknown Region.".

(** The footprint that [scorePose] lays down: the provider's footprint,
    de-oriented with the robot pose and projected to the query pose. *)
Definition projected (footprint : Footprint) (rx ry ryaw : D) (pose : Pose2D)
  : Footprint :=
  transformFootprint (pose_x pose) (pose_y pose) (pose_theta pose)
    (transformFootprint dzero dzero (dneg ryaw)
       (transformFootprint (dneg rx) (dneg ry) dzero footprint)).

(** Every collaborator answers and the query pose is on the grid;
    [footprint] is then the polygon whose boundary is rasterized. *)
Definition laid_down (self : Collaborators) (pose : Pose2D)
  (costmap_ : Costmap2D) (footprint : Footprint) : Prop :=
  exists provided rx ry ryaw,
    getCostmap self = inr costmap_ /\
    worldToMap costmap_ (pose_x pose) (pose_y pose) <> None /\
    getFootprint self = Some provided /\
    tf_transform self = Transformed rx ry ryaw /\
    footprint = projected provided rx ry ryaw pose.

(** The pose lookup threw one of the tf2 exceptions. *)
Definition tf_failed (r : @tf_result D) : Prop :=
  match r with
  | Transformed _ _ _ => False
  | _ => True
  end.

Variable self : @Collaborators D.
Variable costmap_ : @Costmap2D D.

(** The [unsigned char] read from cell [(mx, my)] of the costmap. *)
Definition stored_cost (mx my : Z) : Z := to_unsigned_char (getCost costmap_ mx my).

(** The cost that [pointCost] reads for the [int] cell [c]. *)
Definition cost_at (c : Z * Z) : Z :=
  stored_cost (wrap_unsigned (fst c)) (wrap_unsigned (snd c)).

(** An event that does not stop the scoring: a log line, or the lookup of a
    cell that holds no sentinel. *)
Definition harmless (ev : Event) : Prop :=
  match ev with
  | GetCost mx my => is_sentinel (stored_cost mx my) = false
  | Log _ _ _ => True
  end.

Definition is_maximum (v : Z) (l : list Z) : Prop :=
  In v l /\ Forall (fun x => x <= v) l.

Fixpoint consecutive {A} (l : list A) : list (A * A) :=
  match l with
  | a :: ((b :: _) as rest) => (a, b) :: consecutive rest
  | _ => []
  end.

(** The boundary of the polygon: vertex i to vertex i+1 for every i, then
    the closing edge from the last vertex to the first. *)
Definition boundary_edges (footprint : @Footprint D)
  : list (@Point D * @Point D) :=
  match footprint with
  | [] => []
  | p :: rest => consecutive footprint ++ [(last rest p, p)]
  end.

(** The cells visited when the edge from [p] to [q] is rasterized. *)
Definition edge_cells (e : @Point D * @Point D) (cells : list (Z * Z)) : Prop :=
  exists c0 c1,
    worldToMap costmap_ (point_x (fst e)) (point_y (fst e)) = Some c0 /\
    worldToMap costmap_ (point_x (snd e)) (point_y (snd e)) = Some c1 /\
    LineIterator.rasterize (to_int (fst c0)) (to_int (snd c0))
                           (to_int (fst c1)) (to_int (snd c1)) = Some cells.

(** Edge [e] is on the grid, none of its cells holds a sentinel, and [m] is
    the maximum point cost over its cells. *)
Definition edge_scored (e : @Point D * @Point D) (m : Z) : Prop :=
  exists cells,
    edge_cells e cells /\
    Forall (fun c => is_sentinel (cost_at c) = false) cells /\
    is_maximum m (map cost_at cells).

(** Causes of an IllegalTrajectory exception in the second half of
    [scorePose]. *)
Definition vertex_off_grid (footprint : @Footprint D) : Prop :=
  exists p, In p footprint /\
            worldToMap costmap_ (point_x p) (point_y p) = None.

Definition sentinel_on_boundary (footprint : @Footprint D) : Prop :=
  exists e cells c,
    In e (boundary_edges footprint) /\ edge_cells e cells /\
    In c cells /\ is_sentinel (cost_at c) = true.

Definition sentinel_between_vertices (footprint : @Footprint D) : Prop :=
  exists p q cells c,
    In p footprint /\ In q footprint /\ edge_cells (p, q) cells /\
    In c cells /\ is_sentinel (cost_at c) = true.

(** *** Vocabulary of the proofs *)

(** [lineCost] over the list of cells that the iterator yields. *)
Fixpoint cells_cost (cells : list (Z * Z)) (line_cost : Z) : M Z :=
  match cells with
  | [] => ret line_cost
  | c :: rest =>
      point_cost <- pointCost LETHAL_OBSTACLE NO_INFORMATION self (fst c) (snd c) ;;
      cells_cost rest (if line_cost <? point_cost then point_cost else line_cost)
  end.

(** One edge, as both the loop and the closing step score it. *)
Definition edge_cost (p0 p1 : Point) (msg0 msg1 : string) : M Z :=
  c0 <- vertexToMap self costmap_ p0 msg0 ;;
  c1 <- vertexToMap self costmap_ p1 msg1 ;;
  lineCost LETHAL_OBSTACLE NO_INFORMATION self
           (to_int (fst c0)) (to_int (fst c1)) (to_int (snd c0)) (to_int (snd c1)).

(** The loop over vertex indices, as a recursion over the vertices that
    remain. *)
Fixpoint edges_cost (vertices : @Footprint D) (footprint_cost : Z) : M Z :=
  match vertices with
  | p0 :: ((p1 :: _) as rest) =>
      c0 <- vertexToMap self costmap_ p0 "Footprint Goes Off Grid at map." ;;
      c1 <- vertexToMap self costmap_ p1 "Footprint Goes Off Grid." ;;
      line_cost <- lineCost LETHAL_OBSTACLE NO_INFORMATION self
                            (to_int (fst c0)) (to_int (fst c1))
                            (to_int (snd c0)) (to_int (snd c1)) ;;
      edges_cost rest (Z.max line_cost footprint_cost)
  | _ => ret footprint_cost
  end.

(** The computation stopped at the lookup of a sentinel cell: every earlier
    event was harmless, the lookup is followed by the debug line of
    [pointCost] alone, and the exception is the one of that sentinel. *)
Definition aborted {A} (m : M A) : Prop :=
  exists pre mx my x y,
    events m = pre ++ [GetCost mx my;
                       Log DEBUG "Map Cell: [%d, %d]" [ArgInt x; ArgInt y]] /\
    Forall harmless pre /\
    is_sentinel (stored_cost mx my) = true /\
    result m = Throw (IllegalTrajectoryException (name_ self)
                        (sentinel_message (stored_cost mx my))).

Definition guarded {A} (m : M A) : Prop :=
  aborted m \/ Forall harmless (events m).

(** An exception that leaves the rasterization of [vertices] names the
    checker and has a cause: a vertex off the grid, or a sentinel on the
    rasterized segment between two vertices; an access out of range happens
    only to the empty footprint. *)
Definition blamed (vertices : @Footprint D) {A} (r : outcome A) : Prop :=
  match r with
  | Return _ | Diverge => True
  | Throw (IllegalTrajectoryException n _) =>
      n = name_ self /\
      ((exists p, In p vertices /\
                  worldToMap costmap_ (point_x p) (point_y p) = None) \/
       (exists p q cells c,
           In p vertices /\ In q vertices /\
           edge_cells (p, q) cells /\ In c cells /\
           is_sentinel (cost_at c) = true))
  | Throw OutOfRange => vertices = []
  | Throw _ => False
  end.

End CheckerVocabulary.

(** ** A concrete scene *)

(** A 10 x 10 costmap with unit cells and origin (0, 0) on the integer
    lattice, a robot standing at the origin with heading 0, and a square
    footprint of side 2 around it.  The cost constants are those of the
    scene. *)
Module Scene.

Definition LETHAL_OBSTACLE : Z := 254.
Definition NO_INFORMATION : Z := 255.

Definition grid (cost : Z -> Z -> Z) : @Costmap2D Z := {|
  worldToMap := fun wx wy =>
    if (0 <=? wx) && (wx <? 10) && (0 <=? wy) && (wy <? 10)
    then Some (wx, wy) else None;
  getCost := cost
|}.

Definition free_space : Z -> Z -> Z := fun _ _ => 0.

(** Graded costs everywhere, growing with x. *)
Definition slope : Z -> Z -> Z := fun mx _ => 10 * mx.

(** Free space except for one cell. *)
Definition one_cell (cx cy value : Z) : Z -> Z -> Z :=
  fun mx my => if (mx =? cx) && (my =? cy) then value else 0.

Definition point (px py : Z) : @Point Z := {| point_x := px; point_y := py |}.

Definition square : @Footprint Z :=
  [point (-1) (-1); point 1 (-1); point 1 1; point (-1) 1].

Definition checker (cost : Z -> Z -> Z) (footprint : option (@Footprint Z))
  : @Collaborators Z := {|
  getCostmap := inr (grid cost);
  getFootprint := footprint;
  tf_transform := Transformed 0 0 0;
  name_ := "collision_checker"
|}.

Definition pose (px py quarter_turns : Z) : @Pose2D Z :=
  {| pose_x := px; pose_y := py; pose_theta := quarter_turns |}.

Definition score (self : @Collaborators Z) (p : @Pose2D Z) : M Z :=
  scorePose LETHAL_OBSTACLE NO_INFORMATION self p.

Definition collision_free (self : @Collaborators Z) (p : @Pose2D Z) : M bool :=
  isCollisionFree LETHAL_OBSTACLE NO_INFORMATION self p.

End Scene.

(** ** Vocabulary of the further properties *)

Section FurtherVocabulary.

Context {D : Type} {ops : DoubleOps D}.

(** A costmap of [size_x] by [size_y] cells: [worldToMap] only yields
    cells inside it. *)
Definition bounded_map (costmap_ : @Costmap2D D) (size_x size_y : Z) : Prop :=
  forall wx wy c,
    worldToMap costmap_ wx wy = Some c ->
    0 <= fst c < size_x /\ 0 <= snd c < size_y.

(** An event that reads no cell outside the map. *)
Definition inside_map (size_x size_y : Z) (ev : Event) : Prop :=
  match ev with
  | GetCost mx my => 0 <= mx < size_x /\ 0 <= my < size_y
  | Log _ _ _ => True
  end.

(** The lookup that [pointCost] performs for the [int] cell [c]. *)
Definition lookup (c : Z * Z) : Event :=
  GetCost (wrap_unsigned (fst c)) (wrap_unsigned (snd c)).

(** An event that is no lookup, or the lookup of a cell with property [Q]. *)
Definition looks_up (Q : Z * Z -> Prop) (ev : Event) : Prop :=
  match ev with
  | GetCost _ _ => exists c, Q c /\ ev = lookup c
  | Log _ _ _ => True
  end.

(** A costmap with the geometry of [costmap_] and other stored values, and
    the same checker on it. *)
Definition recosted (costmap_ : @Costmap2D D) (cost : Z -> Z -> Z)
  : @Costmap2D D :=
  {| worldToMap := worldToMap costmap_; getCost := cost |}.

Definition with_costs (self : @Collaborators D) (costmap_ : @Costmap2D D)
  (cost : Z -> Z -> Z) : @Collaborators D := {|
  getCostmap := inr (recosted costmap_ cost);
  getFootprint := getFootprint self;
  tf_transform := tf_transform self;
  name_ := name_ self
|}.

(** A cell visited when some boundary edge of [footprint] is rasterized. *)
Definition boundary_cell (costmap_ : @Costmap2D D) (footprint : @Footprint D)
  (c : Z * Z) : Prop :=
  exists e cells,
    In e (boundary_edges footprint) /\ edge_cells costmap_ e cells /\ In c cells.

End FurtherVocabulary.

(** * Theorems *)

(** ** Machine integers *)

(** On the sizes a vector can have, [size_minus_one] is the subtraction
    modulo [2^64]. *)
Lemma size_minus_one_wraps (size : Z) :
  0 <= size < 2 ^ 64 -> size_minus_one size = (size - 1) mod 2 ^ 64.
Proof.
  intros H. unfold size_minus_one.
  destruct (Z.eqb_spec size 0) as [-> | Hne]; [reflexivity |].
  symmetry. apply Z.mod_small. lia.
Qed.

(** ** Rasterizer *)

Section LineFacts.

Import LineIterator.

Lemma step_div_mod (A m d : Z) :
  0 < d -> 0 <= m <= d ->
  (A + m) / d = A / d + (if d <=? A mod d + m then 1 else 0) /\
  (A + m) mod d = (if d <=? A mod d + m then A mod d + m - d else A mod d + m).
Proof.
  intros Hd Hm.
  pose proof (Z.div_mod A d ltac:(lia)) as HA.
  pose proof (Z.mod_pos_bound A d Hd) as Hr.
  destruct (Z.leb_spec d (A mod d + m)) as [Hc | Hc].
  - assert (A + m = d * (A / d + 1) + (A mod d + m - d)) as E by lia.
    split.
    + symmetry. apply (Z.div_unique _ _ _ (A mod d + m - d)); [lia | exact E].
    + symmetry. apply (Z.mod_unique _ _ (A / d + 1)); [lia | exact E].
  - rewrite Z.add_0_r.
    assert (A + m = d * (A / d) + (A mod d + m)) as E by lia.
    split.
    + symmetry. apply (Z.div_unique _ _ _ (A mod d + m)); [lia | exact E].
    + symmetry. apply (Z.mod_unique _ _ (A / d)); [lia | exact E].
Qed.

(** One [advance] takes the closed form at [k] to the closed form at
    [k + 1]. *)
Lemma advance_line_at (l0 : t) (k : Z) :
  0 < den l0 -> 0 <= numadd l0 <= den l0 ->
  advance (line_at l0 k) = line_at l0 (k + 1).
Proof.
  intros Hd Hm.
  pose proof (step_div_mod (num l0 + k * numadd l0) (numadd l0) (den l0) Hd Hm)
    as [Hq Hr].
  replace (num l0 + k * numadd l0 + numadd l0)
    with (num l0 + (k + 1) * numadd l0) in Hq, Hr by ring.
  unfold line_at, line_offset, advance.
  destruct (x_dominant l0); cbn [x y x_dominant xinc yinc den numadd num numpixels curpixel];
    rewrite Hq, Hr;
    destruct (den l0 <=? (num l0 + k * numadd l0) mod den l0 + numadd l0);
    f_equal; ring.
Qed.

Lemma line_at_0 (l0 : t) :
  (0 <= num l0 < den l0 \/ den l0 = 0) -> line_at l0 0 = l0.
Proof.
  intros H. unfold line_at, line_offset. cbv zeta.
  rewrite !Z.mul_0_l, !Z.add_0_r.
  assert (num l0 / den l0 = 0 /\ num l0 mod den l0 = num l0) as [Hq Hr].
  { destruct H as [H | H].
    - split; [apply Z.div_small | apply Z.mod_small]; lia.
    - rewrite H. split; [apply Z.div_0_r | apply Z.mod_0_r]. }
  rewrite Hq, Hr. destruct l0 as [? ? [] ? ? ? ? ? ? ?]; cbn; f_equal; ring.
Qed.

Lemma curpixel_line_at (l0 : t) (k : Z) :
  curpixel (line_at l0 k) = curpixel l0 + k.
Proof. unfold line_at. destruct (x_dominant l0); reflexivity. Qed.

Lemma numpixels_line_at (l0 : t) (k : Z) :
  numpixels (line_at l0 k) = numpixels l0.
Proof. unfold line_at. destruct (x_dominant l0); reflexivity. Qed.

Lemma numpixels_advance (l : t) : numpixels (advance l) = numpixels l.
Proof. unfold advance. destruct (x_dominant l); reflexivity. Qed.

Lemma curpixel_advance (l : t) : curpixel (advance l) = curpixel l + 1.
Proof. unfold advance. destruct (x_dominant l); reflexivity. Qed.

(** The loop, started [k] steps in with exactly the iterations that remain,
    visits the cells of the closed form from [k] on. *)
Lemma run_line_at (l0 : t) (n k : nat) :
  fresh l0 ->
  Z.of_nat k + Z.of_nat n = den l0 + 1 ->
  run n (line_at l0 (Z.of_nat k)) =
  Some (map (fun j => line_cell (line_at l0 (Z.of_nat j))) (seq k n)).
Proof.
  intros (Hc & Hn & Hm & Hnum). revert k.
  induction n as [| n IH]; intros k Hk.
  - cbn [run seq map]. unfold isValid.
    rewrite curpixel_line_at, numpixels_line_at, Hc, Hn.
    destruct (Z.leb_spec (0 + Z.of_nat k) (den l0)); [lia | reflexivity].
  - cbn [run seq map]. unfold isValid at 1.
    rewrite curpixel_line_at, numpixels_line_at, Hc, Hn.
    destruct (Z.leb_spec (0 + Z.of_nat k) (den l0)) as [Hle | Hgt]; [| lia].
    destruct n as [| n'].
    + cbn [run seq map]. unfold isValid.
      rewrite curpixel_advance, numpixels_advance,
        curpixel_line_at, numpixels_line_at, Hc, Hn.
      destruct (Z.leb_spec (0 + Z.of_nat k + 1) (den l0)); [lia | reflexivity].
    + rewrite advance_line_at by lia.
      replace (Z.of_nat k + 1) with (Z.of_nat (S k)) by lia.
      rewrite IH by lia. reflexivity.
Qed.

Lemma make_fresh (x0 y0 x1 y1 : Z) : fresh (make x0 y0 x1 y1).
Proof.
  unfold fresh, make.
  destruct (Z.leb_spec (Z.abs (y1 - y0)) (Z.abs (x1 - x0)));
    cbn [curpixel numpixels den numadd num];
    repeat split; try lia.
  - destruct (Z.eq_dec (Z.abs (x1 - x0)) 0) as [E | E]; [right; exact E | left].
    split; [apply Z.div_pos; lia | apply Z.div_lt; lia].
  - left. split; [apply Z.div_pos; lia | apply Z.div_lt; lia].
Qed.

Lemma make_den (x0 y0 x1 y1 : Z) :
  den (make x0 y0 x1 y1) = line_major x0 y0 x1 y1.
Proof.
  unfold make, line_major.
  destruct (Z.leb_spec (Z.abs (y1 - y0)) (Z.abs (x1 - x0))); cbn [den]; lia.
Qed.

End LineFacts.

(** The loop over a line terminates, and visits the cells of the closed
    form. *)
Lemma rasterize_line_cells (x0 y0 x1 y1 : Z) :
  LineIterator.rasterize x0 y0 x1 y1 = Some (line_cells x0 y0 x1 y1).
Proof.
  unfold LineIterator.rasterize, line_cells, LineIterator.fuel_for. cbv zeta.
  pose proof (make_fresh x0 y0 x1 y1) as Hf.
  pose proof Hf as (Hc & Hn & Hm & _).
  rewrite Hn, Hc, make_den in *.
  assert (0 <= line_major x0 y0 x1 y1) as Hpos by (unfold line_major; lia).
  replace (Z.to_nat (line_major x0 y0 x1 y1 + 1 - 0))
    with (S (Z.to_nat (line_major x0 y0 x1 y1))) by lia.
  rewrite <- (line_at_0 (LineIterator.make x0 y0 x1 y1)) at 1
    by (destruct Hf as (_ & _ & _ & H); exact H).
  apply (run_line_at _ _ 0%nat Hf).
  rewrite make_den. lia.
Qed.

(** *** The closed form, coordinate by coordinate *)

Lemma line_cells_x_dominant (x0 y0 x1 y1 : Z) :
  Z.abs (y1 - y0) <= Z.abs (x1 - x0) ->
  line_cells x0 y0 x1 y1 = dominant_cells x0 y0 x1 y1.
Proof.
  intros H. unfold line_cells, dominant_cells, line_major. cbv zeta.
  rewrite Z.max_l by lia. apply map_ext. intros j.
  unfold line_cell, line_at, line_offset, LineIterator.make, minor_offset, direction.
  destruct (Z.leb_spec (Z.abs (y1 - y0)) (Z.abs (x1 - x0))); [| lia].
  reflexivity.
Qed.

Lemma line_cells_y_dominant (x0 y0 x1 y1 : Z) :
  Z.abs (x1 - x0) < Z.abs (y1 - y0) ->
  line_cells x0 y0 x1 y1 = map swap_xy (dominant_cells y0 x0 y1 x1).
Proof.
  intros H. unfold line_cells, dominant_cells, line_major. cbv zeta.
  rewrite Z.max_r by lia. rewrite map_map. apply map_ext. intros j.
  unfold line_cell, line_at, line_offset, LineIterator.make, minor_offset, direction.
  destruct (Z.leb_spec (Z.abs (y1 - y0)) (Z.abs (x1 - x0))); [lia |].
  reflexivity.
Qed.

(** *** Arithmetic of the minor offset *)

Lemma minor_offset_0 (major minor : Z) :
  0 <= major -> minor_offset major minor 0 = 0.
Proof.
  intros H. unfold minor_offset. rewrite Z.mul_0_l, Z.add_0_r.
  destruct (Z.eq_dec major 0) as [-> | Hne]; [reflexivity |].
  apply Z.div_small. split; [apply Z.div_pos; lia | apply Z.div_lt; lia].
Qed.

Lemma minor_offset_nonneg (major minor k : Z) :
  0 < major -> 0 <= minor -> 0 <= k -> 0 <= minor_offset major minor k.
Proof.
  intros Hd Hm Hk. unfold minor_offset. apply Z.div_pos; [| exact Hd].
  pose proof (Z.div_pos major 2 ltac:(lia) ltac:(lia)). nia.
Qed.

Lemma minor_offset_end (major minor : Z) :
  0 <= minor <= major -> minor_offset major minor major = minor.
Proof.
  intros H. unfold minor_offset.
  destruct (Z.eq_dec major 0) as [-> | Hne].
  - rewrite Z.div_0_r. lia.
  - rewrite (Z.mul_comm major minor), Z.div_add by lia.
    rewrite (Z.div_small (major / 2)); [lia |].
    split; [apply Z.div_pos; lia | apply Z.div_lt; lia].
Qed.

Lemma minor_offset_step (major minor k : Z) :
  0 < major -> 0 <= minor <= major ->
  minor_offset major minor k <= minor_offset major minor (k + 1)
  <= minor_offset major minor k + 1.
Proof.
  intros Hd Hm. unfold minor_offset.
  pose proof (step_div_mod (major / 2 + k * minor) minor major Hd Hm) as [Hq _].
  replace (major / 2 + (k + 1) * minor) with (major / 2 + k * minor + minor) by ring.
  rewrite Hq.
  destruct (major <=? (major / 2 + k * minor) mod major + minor); lia.
Qed.

(** Without an exact tie at step [k], the offsets reached from the two ends
    add up to the whole minor delta. *)
Lemma minor_offset_mirror (major minor k : Z) :
  0 < major -> 0 <= minor <= major -> 0 <= k <= major ->
  exact_tie major minor k = false ->
  minor_offset major minor k + minor_offset major minor (major - k) = minor.
Proof.
  intros Hd Hm Hk Htie. unfold minor_offset.
  unfold exact_tie in Htie.
  destruct (Z.ltb_spec 0 major) as [_ | ?]; [| lia]. cbn [andb] in Htie.
  apply Z.eqb_neq in Htie.
  set (h := major / 2) in *.
  assert (major = 2 * h + major mod 2 /\ 0 <= major mod 2 < 2) as [Hh Hp].
  { split; [apply Z.div_mod; lia | apply Z.mod_pos_bound; lia]. }
  set (a := h + k * minor). set (b := h + (major - k) * minor).
  pose proof (Z.div_mod a major ltac:(lia)) as Ha.
  pose proof (Z.mod_pos_bound a major Hd) as Hra.
  pose proof (Z.div_mod b major ltac:(lia)) as Hb.
  pose proof (Z.mod_pos_bound b major Hd) as Hrb.
  assert (a + b = 2 * h + major * minor) as Hab by (unfold a, b; ring).
  set (t := a / major + b / major - minor).
  assert (major * t = 2 * h - a mod major - b mod major) as Ht
    by (unfold t; lia).
  assert (t = 0 \/ t = 1) as [H0 | H1] by nia.
  - unfold t in H0. lia.
  - exfalso. apply Htie.
    assert (a mod major = 0 /\ major = 2 * h) as [Hz Heven] by nia.
    assert (k * minor = major * (a / major - 1) + h) as Hkm by (unfold a in *; lia).
    rewrite <- (Z.mod_unique (k * minor) major (a / major - 1) h); [lia | lia | exact Hkm].
Qed.

(** *** Lists built over a range of step numbers *)

Lemma last_map_seq {A} (f : nat -> A) (n : nat) (d : A) :
  last (map f (seq 0 (S n))) d = f n.
Proof.
  rewrite seq_S, map_app. cbn [map]. apply last_last.
Qed.

Lemma last_map_commute {A B} (f : A -> B) (l : list A) (d : A) :
  last (map f l) (f d) = f (last l d).
Proof.
  induction l as [| a [| a' rest] IH]; try reflexivity.
  change (last (map f (a' :: rest)) (f d) = f (last (a' :: rest) d)).
  exact IH.
Qed.

Lemma NoDup_map_injective {A B} (f : A -> B) (l : list A) :
  (forall a a', In a l -> In a' l -> f a = f a' -> a = a') ->
  NoDup l -> NoDup (map f l).
Proof.
  intros Hinj Hnd. induction Hnd as [| a l Hnin Hnd IH]; cbn [map].
  - constructor.
  - constructor.
    + intros Hin. apply in_map_iff in Hin as (a' & Heq & Hin').
      assert (a' = a) as -> by (apply Hinj; [right; exact Hin' | left; reflexivity | exact Heq]).
      contradiction.
    + apply IH. intros; apply Hinj; try right; assumption.
Qed.

Lemma rev_map_seq {A} (f : nat -> A) (n : nat) :
  rev (map f (seq 0 n)) = map (fun j => f (n - 1 - j)%nat) (seq 0 n).
Proof.
  revert f. induction n as [| n IH]; intros f; [reflexivity |].
  rewrite seq_S at 1. rewrite map_app, rev_app_distr. cbn [map rev app plus].
  cbn [seq map]. f_equal.
  - f_equal. lia.
  - rewrite IH, <- seq_shift, map_map. apply map_ext_in.
    intros j Hj. apply in_seq in Hj. f_equal. lia.
Qed.

Lemma monotone_path_map_seq (x0 y0 x1 y1 : Z) (f : nat -> Z * Z) (n k : nat) :
  (forall j, (k <= j)%nat -> (S j < k + n)%nat ->
             towards x0 x1 (fst (f j)) (fst (f (S j))) /\
             towards y0 y1 (snd (f j)) (snd (f (S j)))) ->
  monotone_path x0 y0 x1 y1 (map f (seq k n)).
Proof.
  revert k. induction n as [| n IH]; intros k H; [exact I |].
  destruct n as [| n']; [exact I |].
  change (map f (seq k (S (S n')))) with (f k :: map f (seq (S k) (S n'))).
  change (map f (seq (S k) (S n'))) with (f (S k) :: map f (seq (S (S k)) n')).
  cbn [monotone_path].
  destruct (H k ltac:(lia) ltac:(lia)) as [Hx Hy].
  split; [exact Hx | split; [exact Hy |]].
  change (f (S k) :: map f (seq (S (S k)) n')) with (map f (seq (S k) (S n'))).
  apply IH. intros j H1 H2. apply H; lia.
Qed.

(** *** A segment along its dominant coordinate *)

Lemma dominant_cells_traversal (a0 b0 a1 b1 : Z) :
  Z.abs (b1 - b0) <= Z.abs (a1 - a0) ->
  traversal a0 b0 a1 b1 (dominant_cells a0 b0 a1 b1).
Proof.
  intros Hdom. unfold dominant_cells. cbv zeta.
  set (major := Z.abs (a1 - a0)) in *. set (minor := Z.abs (b1 - b0)) in *.
  assert (0 <= minor <= major) as Hm by (unfold minor, major in *; lia).
  repeat split.
  - cbn [seq map hd_error]. rewrite minor_offset_0 by lia.
    do 2 f_equal; cbn; ring.
  - rewrite last_map_seq, Z2Nat.id by lia.
    rewrite minor_offset_end by exact Hm.
    unfold direction, major, minor.
    destruct (Z.leb_spec a0 a1), (Z.leb_spec b0 b1); f_equal; lia.
  - apply NoDup_map_injective; [| apply seq_NoDup].
    intros j j' _ _ Heq. injection Heq as Ha _.
    unfold direction in Ha. destruct (a0 <=? a1); lia.
  - apply monotone_path_map_seq. intros j _ Hj. cbn [fst snd].
    assert (0 < major) as Hpos by lia.
    replace (Z.of_nat (S j)) with (Z.of_nat j + 1) by lia.
    pose proof (minor_offset_step major minor (Z.of_nat j) Hpos Hm) as Hstep.
    assert (minor = 0 ->
            minor_offset major minor (Z.of_nat j + 1) =
            minor_offset major minor (Z.of_nat j)) as Hflat.
    { intros ->. unfold minor_offset. now rewrite !Z.mul_0_r. }
    unfold towards, direction, major, minor in *.
    destruct (Z.leb_spec a0 a1), (Z.leb_spec b0 b1); repeat split; intros; nia.
Qed.

Lemma dominant_cells_reverse (a0 b0 a1 b1 : Z) :
  Z.abs (b1 - b0) <= Z.abs (a1 - a0) ->
  (forall k, 0 <= k <= Z.abs (a1 - a0) ->
             exact_tie (Z.abs (a1 - a0)) (Z.abs (b1 - b0)) k = false) ->
  dominant_cells a1 b1 a0 b0 = rev (dominant_cells a0 b0 a1 b1).
Proof.
  intros Hdom Htie. unfold dominant_cells. cbv zeta.
  replace (Z.abs (a0 - a1)) with (Z.abs (a1 - a0)) by lia.
  replace (Z.abs (b0 - b1)) with (Z.abs (b1 - b0)) by lia.
  set (major := Z.abs (a1 - a0)) in *. set (minor := Z.abs (b1 - b0)) in *.
  assert (0 <= minor <= major) as Hm by (unfold minor, major in *; lia).
  rewrite rev_map_seq. apply map_ext_in. intros j Hj. apply in_seq in Hj.
  replace (Z.of_nat (S (Z.to_nat major) - 1 - j)) with (major - Z.of_nat j) by lia.
  destruct (Z.eq_dec major 0) as [Hz | Hnz].
  - assert (j = 0%nat) as -> by lia.
    unfold minor_offset. rewrite Hz, !Z.div_0_r.
    unfold major, minor in *. f_equal; lia.
  - pose proof (minor_offset_mirror major minor (Z.of_nat j)
                  ltac:(lia) Hm ltac:(lia) (Htie (Z.of_nat j) ltac:(lia))) as Hmir.
    pose proof (minor_offset_nonneg major minor (Z.of_nat j)
                  ltac:(lia) ltac:(lia) ltac:(lia)) as Hp1.
    pose proof (minor_offset_nonneg major minor (major - Z.of_nat j)
                  ltac:(lia) ltac:(lia) ltac:(lia)) as Hp2.
    unfold direction, major, minor in *.
    destruct (Z.leb_spec a0 a1), (Z.leb_spec b0 b1),
             (Z.leb_spec a1 a0), (Z.leb_spec b1 b0); f_equal; lia.
Qed.

(** *** Exchanging the two coordinates *)

Lemma map_swap_swap (cells : list (Z * Z)) :
  map swap_xy (map swap_xy cells) = cells.
Proof.
  rewrite map_map. rewrite <- (map_id cells) at 2.
  apply map_ext. intros []; reflexivity.
Qed.

Lemma traversal_swap (x0 y0 x1 y1 : Z) (cells : list (Z * Z)) :
  traversal y0 x0 y1 x1 cells -> traversal x0 y0 x1 y1 (map swap_xy cells).
Proof.
  intros (Hhd & Hlast & Hnd & Hmono). repeat split.
  - destruct cells as [| c cells]; [discriminate |].
    cbn in *. injection Hhd as ->. reflexivity.
  - change (x0, y0) with (swap_xy (y0, x0)).
    rewrite last_map_commute, Hlast. reflexivity.
  - apply NoDup_map_injective; [| exact Hnd].
    intros [a b] [a' b'] _ _ H. unfold swap_xy in H. cbn in H. congruence.
  - clear Hhd Hlast Hnd. induction cells as [| c [| c' rest] IH]; try exact I.
    destruct Hmono as (Hx & Hy & Hrest).
    change (map swap_xy (c :: c' :: rest))
      with (swap_xy c :: swap_xy c' :: map swap_xy rest).
    cbn [monotone_path].
    split; [exact Hy | split; [exact Hx | apply (IH Hrest)]].
Qed.

Lemma minor_offset_tie (major minor k : Z) :
  0 <= minor <= major -> 0 <= k <= major ->
  exact_tie major minor k = true ->
  minor <> 0 /\
  minor_offset major minor k + minor_offset major minor (major - k) = minor + 1.
Proof.
  intros Hm Hk Htie. unfold exact_tie in Htie.
  apply andb_prop in Htie as [Hd Heq].
  apply Z.ltb_lt in Hd. apply Z.eqb_eq in Heq.
  pose proof (Z.div_mod (k * minor) major ltac:(lia)) as Hkm.
  set (q := k * minor / major) in *. set (r := (k * minor) mod major) in *.
  split.
  - intros ->. unfold r in Heq. rewrite Z.mul_0_r, Z.mod_0_l in Heq; lia.
  - unfold minor_offset.
    assert (major / 2 = r) as ->.
    { symmetry. apply (Z.div_unique _ _ _ 0); lia. }
    rewrite <- (Z.div_unique (r + k * minor) major (q + 1) 0) by lia.
    rewrite <- (Z.div_unique (r + (major - k) * minor) major (minor - q) 0) by nia.
    lia.
Qed.

Lemma dominant_cells_reverse_inv (a0 b0 a1 b1 : Z) :
  Z.abs (b1 - b0) <= Z.abs (a1 - a0) ->
  dominant_cells a1 b1 a0 b0 = rev (dominant_cells a0 b0 a1 b1) ->
  forall k, 0 <= k <= Z.abs (a1 - a0) ->
            exact_tie (Z.abs (a1 - a0)) (Z.abs (b1 - b0)) k = false.
Proof.
  intros Hdom Heq k Hk.
  destruct (exact_tie (Z.abs (a1 - a0)) (Z.abs (b1 - b0)) k) eqn:Htie;
    [exfalso | reflexivity].
  unfold dominant_cells in Heq. cbv zeta in Heq.
  replace (Z.abs (a0 - a1)) with (Z.abs (a1 - a0)) in Heq by lia.
  replace (Z.abs (b0 - b1)) with (Z.abs (b1 - b0)) in Heq by lia.
  set (major := Z.abs (a1 - a0)) in *. set (minor := Z.abs (b1 - b0)) in *.
  rewrite rev_map_seq in Heq.
  assert (In (Z.to_nat k) (seq 0 (S (Z.to_nat major)))) as Hin
    by (apply in_seq; lia).
  pose proof (proj1 map_ext_in_iff Heq _ Hin) as Hcell.
  cbv beta in Hcell.
  replace (Z.of_nat (S (Z.to_nat major) - 1 - Z.to_nat k)) with (major - k)
    in Hcell by lia.
  rewrite Z2Nat.id in Hcell by lia.
  injection Hcell as _ Hb.
  destruct (minor_offset_tie major minor k ltac:(lia) Hk Htie) as [Hnz Hsum].
  unfold direction, major, minor in *.
  destruct (Z.leb_spec b0 b1), (Z.leb_spec b1 b0); lia.
Qed.

(** *** The rasterizer *)

Lemma line_cells_traversal (x0 y0 x1 y1 : Z) :
  traversal x0 y0 x1 y1 (line_cells x0 y0 x1 y1).
Proof.
  destruct (Z_le_gt_dec (Z.abs (y1 - y0)) (Z.abs (x1 - x0))) as [H | H].
  - rewrite line_cells_x_dominant by exact H.
    apply dominant_cells_traversal, H.
  - rewrite line_cells_y_dominant by lia.
    apply traversal_swap, dominant_cells_traversal. lia.
Qed.

Lemma tie_free_spec (x0 y0 x1 y1 : Z) :
  tie_free x0 y0 x1 y1 = true <->
  forall k, 0 <= k <= line_major x0 y0 x1 y1 ->
            exact_tie (line_major x0 y0 x1 y1) (line_minor x0 y0 x1 y1) k = false.
Proof.
  unfold tie_free. cbv zeta. rewrite forallb_forall. split.
  - intros H k Hk. apply negb_true_iff.
    rewrite <- (Z2Nat.id k) by lia. apply H, in_seq. lia.
  - intros H j Hj. apply in_seq in Hj. apply negb_true_iff, H.
    assert (0 <= line_major x0 y0 x1 y1) by (unfold line_major; lia). lia.
Qed.

Lemma line_cells_reverse_iff (x0 y0 x1 y1 : Z) :
  line_cells x1 y1 x0 y0 = rev (line_cells x0 y0 x1 y1) <->
  tie_free x0 y0 x1 y1 = true.
Proof.
  rewrite tie_free_spec. unfold line_major, line_minor.
  destruct (Z_le_gt_dec (Z.abs (y1 - y0)) (Z.abs (x1 - x0))) as [H | H].
  - rewrite (line_cells_x_dominant x0 y0 x1 y1) by exact H.
    rewrite (line_cells_x_dominant x1 y1 x0 y0) by lia.
    rewrite Z.max_l, Z.min_r by lia. split.
    + apply dominant_cells_reverse_inv, H.
    + apply dominant_cells_reverse, H.
  - rewrite (line_cells_y_dominant x0 y0 x1 y1) by lia.
    rewrite (line_cells_y_dominant x1 y1 x0 y0) by lia.
    rewrite Z.max_r, Z.min_l by lia. rewrite <- map_rev. split.
    + intros Heq. apply dominant_cells_reverse_inv; [lia |].
      apply (f_equal (map swap_xy)) in Heq.
      now rewrite !map_swap_swap in Heq.
    + intros Htie. f_equal. apply dominant_cells_reverse; [lia | exact Htie].
Qed.

(** Horizontal, vertical and diagonal segments, and every segment whose
    longer side is odd, have no exact tie. *)
Lemma tie_free_slopes (x0 y0 x1 y1 : Z) :
  x0 = x1 \/ y0 = y1 \/ Z.abs (x1 - x0) = Z.abs (y1 - y0) \/
  Z.odd (line_major x0 y0 x1 y1) = true ->
  tie_free x0 y0 x1 y1 = true.
Proof.
  intros H. apply tie_free_spec. intros k Hk. unfold exact_tie.
  destruct (Z.ltb_spec 0 (line_major x0 y0 x1 y1)) as [Hpos | ?]; [| reflexivity].
  cbn [andb]. apply Z.eqb_neq.
  assert (line_minor x0 y0 x1 y1 = 0 \/
          line_minor x0 y0 x1 y1 = line_major x0 y0 x1 y1 \/
          Z.odd (line_major x0 y0 x1 y1) = true) as [E | [E | E]].
  { destruct H as [H | [H | [H | H]]]; [left | left | right; left | right; right];
      try exact H; unfold line_major, line_minor; lia. }
  - rewrite E, Z.mul_0_r, Z.mod_0_l; lia.
  - rewrite E, Z.mod_mul; lia.
  - apply Z.odd_spec in E as [n E]. lia.
Qed.

(** The modelled iterator in both directions.  For every pair of grid
    coordinates it terminates; each trace starts at its first endpoint,
    ends at its second, visits no cell twice and moves monotonically, whatever
    the slope.  The trace from [(x1, y1)] to [(x0, y0)] is the reverse of the
    trace from [(x0, y0)] to [(x1, y1)] exactly when no step lands half-way
    between two cells ([tie_free]), which is the case of every horizontal,
    vertical and diagonal segment and of every segment whose longer side is
    odd. *)
Theorem rasterize_both_directions (x0 y0 x1 y1 : Z) :
  exists fwd bwd,
    LineIterator.rasterize x0 y0 x1 y1 = Some fwd /\
    LineIterator.rasterize x1 y1 x0 y0 = Some bwd /\
    traversal x0 y0 x1 y1 fwd /\
    traversal x1 y1 x0 y0 bwd /\
    (bwd = rev fwd <-> tie_free x0 y0 x1 y1 = true) /\
    (x0 = x1 \/ y0 = y1 \/ Z.abs (x1 - x0) = Z.abs (y1 - y0) \/
     Z.odd (line_major x0 y0 x1 y1) = true ->
     tie_free x0 y0 x1 y1 = true).
Proof.
  exists (line_cells x0 y0 x1 y1), (line_cells x1 y1 x0 y0).
  split; [apply rasterize_line_cells |].
  split; [apply rasterize_line_cells |].
  split; [apply line_cells_traversal |].
  split; [apply line_cells_traversal |].
  split; [apply line_cells_reverse_iff | apply tie_free_slopes].
Qed.

(** A tie in the modelled iterator: the segment from (0,0) to (2,1) passes
    exactly between the cells (1,0) and (1,1); with the accumulator started
    at [den / 2] each direction resolves the tie on its own side, so the two
    traces do not visit the same cells. *)
Lemma rasterize_tie_not_reversed :
  LineIterator.rasterize 0 0 2 1 = Some [(0, 0); (1, 1); (2, 1)] /\
  LineIterator.rasterize 2 1 0 0 = Some [(2, 1); (1, 0); (0, 0)] /\
  [(2, 1); (1, 0); (0, 0)] <> rev [(0, 0); (1, 1); (2, 1)] /\
  ~ In (1, 1) [(2, 1); (1, 0); (0, 0)].
Proof.
  repeat split; try reflexivity.
  - cbn. intros H. discriminate H.
  - cbn. intros [H | [H | [H | []]]]; discriminate H.
Qed.

(** ** Footprint transform, over the real numbers *)

Section TransformFacts.

Local Open Scope R_scope.

Abbreviation RPoint := (@Point R).
Abbreviation RFootprint := (@Footprint R).

Lemma rotate_zero (p : RPoint) : rotate 0 p = p.
Proof.
  destruct p as [px py]. unfold rotate. cbn.
  rewrite cos_0, sin_0. f_equal; ring.
Qed.

Lemma translate_zero (p : RPoint) : translate 0 0 p = p.
Proof. destruct p as [px py]. unfold translate. cbn. f_equal; ring. Qed.

Lemma rotate_back (theta : R) (p : RPoint) : rotate theta (rotate (- theta) p) = p.
Proof.
  destruct p as [px py]. unfold rotate. cbn.
  rewrite cos_neg, sin_neg.
  pose proof (sin2_cos2 theta) as H. unfold Rsqr in H.
  f_equal.
  - transitivity (px * (sin theta * sin theta + cos theta * cos theta)); [ring |].
    rewrite H. ring.
  - transitivity (py * (sin theta * sin theta + cos theta * cos theta)); [ring |].
    rewrite H. ring.
Qed.

Lemma translate_back (x y : R) (p : RPoint) :
  translate x y (translate (- x) (- y) p) = p.
Proof. destruct p as [px py]. unfold translate. cbn. f_equal; ring. Qed.

(** What [unorientFootprint] computes once the robot pose is known. *)
Lemma unorientFootprint_transformed (self : @Collaborators R)
  (footprint : RFootprint) (x y yaw : R) :
  tf_transform self = Transformed x y yaw ->
  unorientFootprint self footprint =
  ret (map (rotate (- yaw)) (map (translate (- x) (- y)) footprint)).
Proof.
  intros Htf. unfold unorientFootprint, getRobotPose. rewrite Htf.
  cbn. unfold ret. do 2 f_equal.
  unfold transformFootprint. rewrite map_map.
  rewrite !map_map. apply map_ext. intros p.
  change (@dzero R real_ops) with 0.
  change (@dneg R real_ops) with Ropp.
  rewrite translate_zero, rotate_zero. reflexivity.
Qed.

(** C7.  De-orient ([unorientFootprint]) first translates every vertex by
    [(-x, -y)] and then rotates it by [-yaw] about the origin; Project
    ([transformFootprint]) first rotates every vertex by [theta] and then
    translates it by [(x, y)].  The two orders are not interchangeable:
    rotating the origin by a half turn and translating it by (1, 0) gives
    (1, 0), translating first and rotating afterwards gives (-1, 0). *)
Theorem deorient_then_project_order :
  (forall (self : @Collaborators R) (footprint : RFootprint) (x y yaw : R),
      tf_transform self = Transformed x y yaw ->
      result (unorientFootprint self footprint) =
      Return (map (rotate (- yaw)) (map (translate (- x) (- y)) footprint))) /\
  (forall (x y theta : R) (footprint_spec : RFootprint),
      transformFootprint x y theta footprint_spec =
      map (translate x y) (map (rotate theta) footprint_spec)) /\
  translate 1 0 (rotate PI {| point_x := 0; point_y := 0 |}) <>
  rotate PI (translate 1 0 {| point_x := 0; point_y := 0 |}).
Proof.
  repeat split.
  - intros self footprint x y yaw Htf.
    rewrite (unorientFootprint_transformed _ _ _ _ _ Htf). reflexivity.
  - intros x y theta footprint_spec. unfold transformFootprint.
    rewrite map_map. reflexivity.
  - unfold translate, rotate. cbn. rewrite cos_PI, sin_PI.
    intros H. injection H as H _. lra.
Qed.

(** In exact real arithmetic, De-orient with the robot pose followed by
    Project with the same pose gives back every vertex of the footprint.
    This is the algebra behind the round trip; it says nothing about the
    rounding of [double], where the two translations do not cancel
    exactly. *)
Theorem deorient_project_round_trip (self : @Collaborators R)
  (footprint : RFootprint) (x y yaw : R) :
  tf_transform self = Transformed x y yaw ->
  exists footprint_spec,
    result (unorientFootprint self footprint) = Return footprint_spec /\
    transformFootprint x y yaw footprint_spec = footprint.
Proof.
  intros Htf. eexists. split.
  - rewrite (unorientFootprint_transformed _ _ _ _ _ Htf). reflexivity.
  - unfold transformFootprint. rewrite !map_map.
    rewrite <- (map_id footprint) at 2. apply map_ext. intros p.
    rewrite rotate_back, translate_back. reflexivity.
Qed.

End TransformFacts.

(** ** The effect monad *)

Lemma result_bind {A B} (m : M A) (k : A -> M B) :
  result (bind m k) =
  match result m with
  | Return a => result (k a)
  | Throw e => Throw e
  | Diverge => Diverge
  end.
Proof. destruct m as [t [a | e |]]; cbn; try reflexivity. destruct (k a); reflexivity. Qed.

Lemma events_bind {A B} (m : M A) (k : A -> M B) :
  events (bind m k) =
  events m ++ match result m with Return a => events (k a) | _ => [] end.
Proof.
  destruct m as [t [a | e |]]; cbn; try (symmetry; apply app_nil_r).
  destruct (k a); reflexivity.
Qed.

Lemma bind_ret {A B} (a : A) (k : A -> M B) : bind (ret a) k = k a.
Proof. unfold ret, bind. destruct (k a); reflexivity. Qed.

Lemma bind_bind {A B C} (m : M A) (k : A -> M B) (h : B -> M C) :
  bind (bind m k) h = bind m (fun a => bind (k a) h).
Proof.
  destruct m as [t [a | e |]]; cbn; try reflexivity.
  destruct (k a) as [t' [b | e' |]]; cbn; try reflexivity.
  destruct (h b); cbn. now rewrite app_assoc.
Qed.

(** Run a computation whose first step is a plain return. *)
Ltac run_ret := cbv beta iota; rewrite bind_ret; cbv beta iota.

Lemma bind_ext {A B} (m : M A) (k k' : A -> M B) :
  (forall a, result m = Return a -> k a = k' a) -> bind m k = bind m k'.
Proof.
  destruct m as [t [a | e |]]; cbn; intros H; try reflexivity.
  now rewrite (H a eq_refl).
Qed.

(** ** The checker *)

Section CheckerFacts.

Context {D : Type} {ops : DoubleOps D}.
Variables LETHAL_OBSTACLE NO_INFORMATION : Z.
Variable self : @Collaborators D.
Variable costmap_ : @Costmap2D D.
Hypothesis Hcostmap : getCostmap self = inr costmap_.

Local Abbreviation sentinel := (is_sentinel LETHAL_OBSTACLE NO_INFORMATION).
Local Abbreviation message := (sentinel_message LETHAL_OBSTACLE).
Local Abbreviation stored := (stored_cost costmap_).
Local Abbreviation cost := (cost_at costmap_).
Local Abbreviation pointCost' := (pointCost LETHAL_OBSTACLE NO_INFORMATION self).
Local Abbreviation lineCost' := (lineCost LETHAL_OBSTACLE NO_INFORMATION self).
Local Abbreviation lineCost_loop' := (lineCost_loop LETHAL_OBSTACLE NO_INFORMATION self).
Local Abbreviation loop' := (scorePose_loop LETHAL_OBSTACLE NO_INFORMATION self costmap_).
Local Abbreviation edges' := (scorePose_edges LETHAL_OBSTACLE NO_INFORMATION self costmap_).
Local Abbreviation hits x y :=
  (Log DEBUG "Map Cell: [%d, %d]" [ArgInt x; ArgInt y]).
Local Abbreviation cells_cost' := (cells_cost LETHAL_OBSTACLE NO_INFORMATION self).
Local Abbreviation edge_cost' :=
  (edge_cost LETHAL_OBSTACLE NO_INFORMATION self costmap_).
Local Abbreviation edges_cost' :=
  (edges_cost LETHAL_OBSTACLE NO_INFORMATION self costmap_).
Local Abbreviation aborted' := (aborted LETHAL_OBSTACLE NO_INFORMATION self costmap_).
Local Abbreviation guarded' := (guarded LETHAL_OBSTACLE NO_INFORMATION self costmap_).
Local Abbreviation blamed' := (blamed LETHAL_OBSTACLE NO_INFORMATION self costmap_).

(** *** One cell *)

Lemma pointCost_eq (x y : Z) :
  pointCost' x y =
  if sentinel (cost (x, y))
  then ([GetCost (wrap_unsigned x) (wrap_unsigned y); hits x y],
        Throw (IllegalTrajectoryException (name_ self) (message (cost (x, y)))))
  else ([GetCost (wrap_unsigned x) (wrap_unsigned y)], Return (cost (x, y))).
Proof.
  unfold pointCost, costmap_sub_getCostmap, is_sentinel, sentinel_message,
    cost_at, stored_cost.
  rewrite Hcostmap, bind_ret. cbn [fst snd].
  destruct (_ =? LETHAL_OBSTACLE); [reflexivity |].
  destruct (_ =? NO_INFORMATION); reflexivity.
Qed.

Lemma cost_range (c : Z * Z) : 0 <= cost c < 256.
Proof.
  unfold cost_at, stored_cost, to_unsigned_char.
  change (2 ^ 8) with 256. apply Z.mod_pos_bound. lia.
Qed.

(** *** One line *)

Lemma lineCost_loop_cells (fuel : nat) (line : LineIterator.t)
  (cells : list (Z * Z)) (line_cost : Z) :
  LineIterator.run fuel line = Some cells ->
  lineCost_loop' fuel line line_cost = cells_cost' cells line_cost.
Proof.
  revert line cells line_cost.
  induction fuel as [| fuel IH]; intros line cells line_cost; cbn [LineIterator.run lineCost_loop].
  - destruct (LineIterator.isValid line); [discriminate |].
    intros [= <-]. reflexivity.
  - destruct (LineIterator.isValid line).
    + destruct (LineIterator.run fuel (LineIterator.advance line)) as [rest |] eqn:Hrun;
        [| discriminate].
      intros [= <-]. cbn [cells_cost fst snd].
      apply bind_ext. intros pc _. apply IH, Hrun.
    + intros [= <-]. reflexivity.
Qed.

Lemma lineCost_cells (x0 x1 y0 y1 : Z) :
  lineCost' x0 x1 y0 y1 = cells_cost' (line_cells x0 y0 x1 y1) 0.
Proof.
  unfold lineCost. cbv zeta. apply lineCost_loop_cells.
  apply rasterize_line_cells.
Qed.

(** A line either meets a sentinel, or returns the largest cost met. *)
Lemma cells_cost_result (cells : list (Z * Z)) (line_cost : Z) :
  match result (cells_cost' cells line_cost) with
  | Return v =>
      Forall (fun c => sentinel (cost c) = false) cells /\
      v = fold_left Z.max (map cost cells) line_cost
  | Throw e =>
      exists c, In c cells /\ sentinel (cost c) = true /\
                e = IllegalTrajectoryException (name_ self) (message (cost c))
  | Diverge => False
  end.
Proof.
  revert line_cost. induction cells as [| c rest IH]; intros line_cost.
  - cbn. split; [constructor | reflexivity].
  - cbn [cells_cost']. rewrite result_bind, pointCost_eq.
    rewrite <- surjective_pairing.
    destruct (sentinel (cost c)) eqn:Hs; cbn [result snd].
    + exists c. repeat split; [left; reflexivity | exact Hs].
    + specialize (IH (if line_cost <? cost c then cost c else line_cost)).
      destruct (result (cells_cost' rest _)) as [v | e |]; [| | exact IH].
      * destruct IH as [Hall ->]. split; [constructor; assumption |].
        cbn [map fold_left]. f_equal.
        destruct (Z.ltb_spec line_cost (cost c)); lia.
      * destruct IH as (c' & Hin & Hc' & ->).
        exists c'. repeat split; [right; exact Hin | exact Hc'].
Qed.

(** *** Sentinels stop the scoring *)

Lemma guarded_quiet {A} (m : M A) :
  Forall (harmless LETHAL_OBSTACLE NO_INFORMATION costmap_) (events m) -> guarded' m.
Proof. intros H. right. exact H. Qed.

Lemma guarded_bind {A B} (m : M A) (k : A -> M B) :
  guarded' m -> (forall a, guarded' (k a)) -> guarded' (bind m k).
Proof.
  intros Hm Hk. destruct m as [t [a | e |]].
  - destruct Hm as [(pre & mx & my & x & y & _ & _ & _ & Hr) | Hclean];
      [discriminate Hr |].
    specialize (Hk a). cbn in Hclean. cbn [bind].
    destruct (k a) as [t' r'].
    destruct Hk as [(pre & mx & my & x & y & Hev & Hpre & Hs & Hr) | Hclean'].
    + left. exists (t ++ pre), mx, my, x, y. cbn in *.
      rewrite Hev, app_assoc. repeat split; try assumption.
      apply Forall_app; split; assumption.
    + right. cbn in *. apply Forall_app; split; assumption.
  - destruct Hm as [(pre & mx & my & x & y & Hev & Hpre & Hs & Hr) | Hclean].
    + left. exists pre, mx, my, x, y. cbn in *. injection Hr as ->.
      repeat split; assumption.
    + right. exact Hclean.
  - destruct Hm as [(pre & mx & my & x & y & _ & _ & _ & Hr) | Hclean];
      [discriminate Hr |].
    right. exact Hclean.
Qed.

Lemma guarded_pointCost (x y : Z) : guarded' (pointCost' x y).
Proof.
  rewrite pointCost_eq. unfold cost_at. cbn [fst snd].
  destruct (sentinel (stored (wrap_unsigned x) (wrap_unsigned y))) eqn:Hs.
  - left. exists [], (wrap_unsigned x), (wrap_unsigned y), x, y.
    repeat split; [constructor | exact Hs].
  - right. constructor; [exact Hs | constructor].
Qed.

Lemma guarded_lineCost_loop (fuel : nat) (line : LineIterator.t) (line_cost : Z) :
  guarded' (lineCost_loop' fuel line line_cost).
Proof.
  revert line line_cost. induction fuel as [| fuel IH]; intros line line_cost;
    cbn [lineCost_loop]; destruct (LineIterator.isValid line);
    try (apply guarded_quiet; constructor).
  apply guarded_bind; [apply guarded_pointCost | intros pc; apply IH].
Qed.

Lemma guarded_lineCost (x0 x1 y0 y1 : Z) : guarded' (lineCost' x0 x1 y0 y1).
Proof. apply guarded_lineCost_loop. Qed.

Lemma guarded_vertexToMap (p : Point) (msg : string) :
  guarded' (vertexToMap self costmap_ p msg).
Proof.
  apply guarded_quiet. unfold vertexToMap.
  destruct (worldToMap costmap_ (point_x p) (point_y p)); repeat constructor.
Qed.

Lemma guarded_at_index (footprint : @Footprint D) (i : Z) :
  guarded' (at_index footprint i).
Proof.
  apply guarded_quiet. unfold at_index.
  destruct (nth_error footprint (Z.to_nat i)); constructor.
Qed.

Lemma guarded_back (footprint : @Footprint D) : guarded' (back footprint).
Proof. apply guarded_quiet. destruct footprint; constructor. Qed.

Lemma guarded_front (footprint : @Footprint D) : guarded' (front footprint).
Proof. apply guarded_quiet. destruct footprint; constructor. Qed.

(** *** Who is to blame for an exception *)

Lemma blamed_bind (vertices : @Footprint D) {A B} (m : M A) (k : A -> M B) :
  blamed' vertices (result m) ->
  (forall a, result m = Return a -> blamed' vertices (result (k a))) ->
  blamed' vertices (result (bind m k)).
Proof.
  intros Hm Hk. rewrite result_bind.
  destruct (result m) as [a | e |]; [apply Hk; reflexivity | exact Hm | exact I].
Qed.

Lemma blamed_vertexToMap (vertices : @Footprint D) (p : Point) (msg : string) :
  In p vertices -> blamed' vertices (result (vertexToMap self costmap_ p msg)).
Proof.
  intros Hin. unfold vertexToMap.
  destruct (worldToMap costmap_ (point_x p) (point_y p)) eqn:Hw; cbn; [exact I |].
  split; [reflexivity | left; exists p; split; assumption].
Qed.

Lemma blamed_lineCost (vertices : @Footprint D) (p q : Point) (c0 c1 : Z * Z) :
  In p vertices -> In q vertices ->
  worldToMap costmap_ (point_x p) (point_y p) = Some c0 ->
  worldToMap costmap_ (point_x q) (point_y q) = Some c1 ->
  blamed' vertices (result (lineCost' (to_int (fst c0)) (to_int (fst c1))
                                     (to_int (snd c0)) (to_int (snd c1)))).
Proof.
  intros Hp Hq H0 H1. rewrite lineCost_cells.
  pose proof (cells_cost_result
                (line_cells (to_int (fst c0)) (to_int (snd c0))
                            (to_int (fst c1)) (to_int (snd c1))) 0) as H.
  destruct (result (cells_cost' _ 0)) as [v | e |]; [exact I | | exact I].
  destruct H as (c & Hin & Hs & ->). split; [reflexivity | right].
  exists p, q, (line_cells (to_int (fst c0)) (to_int (snd c0))
                           (to_int (fst c1)) (to_int (snd c1))), c.
  repeat split; try assumption.
  exists c0, c1. cbn [fst snd]. repeat split; try assumption.
  apply rasterize_line_cells.
Qed.

Lemma at_index_In (footprint : @Footprint D) (i : Z) (p : Point) :
  result (at_index footprint i) = Return p -> In p footprint.
Proof.
  unfold at_index.
  destruct (nth_error footprint (Z.to_nat i)) eqn:Hn; [| discriminate].
  intros [= <-]. eapply nth_error_In, Hn.
Qed.

Lemma at_index_in_range (footprint : @Footprint D) (i : Z) :
  0 <= i < Z.of_nat (List.length footprint) ->
  exists p, at_index footprint i = ret p /\ In p footprint.
Proof.
  intros Hi. unfold at_index.
  destruct (nth_error footprint (Z.to_nat i)) eqn:Hn.
  - exists p. split; [reflexivity | eapply nth_error_In, Hn].
  - apply nth_error_None in Hn. lia.
Qed.

Lemma blamed_at_index (footprint : @Footprint D) (i : Z) :
  0 <= i -> (footprint <> [] -> i < Z.of_nat (List.length footprint)) ->
  blamed' footprint (result (at_index footprint i)).
Proof.
  intros Hi Hlt. destruct footprint as [| p rest].
  - unfold at_index. destruct (Z.to_nat i); reflexivity.
  - destruct (at_index_in_range (p :: rest) i) as (q & -> & _).
    + split; [exact Hi | apply Hlt; discriminate].
    + exact I.
Qed.

Lemma blamed_back (footprint : @Footprint D) : blamed' footprint (result (back footprint)).
Proof. destruct footprint; [reflexivity | exact I]. Qed.

Lemma blamed_front (footprint : @Footprint D) : blamed' footprint (result (front footprint)).
Proof. destruct footprint; [reflexivity | exact I]. Qed.

Lemma back_In (footprint : @Footprint D) (p : Point) :
  result (back footprint) = Return p -> In p footprint.
Proof.
  destruct footprint as [| q rest]; [discriminate |].
  intros [= <-]. clear.
  induction rest as [| r [| r' rest] IH]; [left; reflexivity | right; left; reflexivity |].
  change (last (r :: r' :: rest) q) with (last (r' :: rest) q).
  destruct IH as [IH | IH]; [left; exact IH | right; right; exact IH].
Qed.

Lemma front_In (footprint : @Footprint D) (p : Point) :
  result (front footprint) = Return p -> In p footprint.
Proof.
  destruct footprint as [| q rest]; [discriminate |].
  intros [= <-]. left; reflexivity.
Qed.

Lemma vertexToMap_return (p : Point) (msg : string) (c : Z * Z) :
  result (vertexToMap self costmap_ p msg) = Return c ->
  worldToMap costmap_ (point_x p) (point_y p) = Some c.
Proof.
  unfold vertexToMap.
  destruct (worldToMap costmap_ (point_x p) (point_y p)); cbn; congruence.
Qed.

(** *** The edges *)

Lemma wrap_unsigned_range (z : Z) : 0 <= wrap_unsigned z < 2 ^ 32.
Proof. unfold wrap_unsigned. apply Z.mod_pos_bound. lia. Qed.

Lemma wrap_unsigned_le (z : Z) : 0 <= z -> wrap_unsigned z <= z.
Proof. intros H. unfold wrap_unsigned. apply Z.mod_le; lia. Qed.

Lemma wrap_unsigned_small (z : Z) : 0 <= z < 2 ^ 32 -> wrap_unsigned z = z.
Proof. intros H. unfold wrap_unsigned. apply Z.mod_small. exact H. Qed.

Lemma size_minus_one_nonempty (footprint : @Footprint D) :
  footprint <> [] ->
  size_minus_one (Z.of_nat (List.length footprint)) =
  Z.of_nat (List.length footprint) - 1.
Proof.
  intros Hne. unfold size_minus_one.
  destruct (Z.eqb_spec (Z.of_nat (List.length footprint)) 0) as [E | E];
    [| reflexivity].
  destruct footprint; [contradiction | discriminate E].
Qed.

Lemma guarded_loop (footprint : @Footprint D) (fuel : nat) (i footprint_cost : Z) :
  guarded' (loop' footprint fuel i footprint_cost).
Proof.
  revert i footprint_cost.
  induction fuel as [| fuel IH]; intros i footprint_cost; cbn [scorePose_loop];
    destruct (i <? size_minus_one (Z.of_nat (List.length footprint)));
    try (apply guarded_quiet; constructor).
  apply guarded_bind; [apply guarded_at_index | intros p0].
  apply guarded_bind; [apply guarded_vertexToMap | intros c0].
  apply guarded_bind; [apply guarded_at_index | intros p1].
  apply guarded_bind; [apply guarded_vertexToMap | intros c1].
  apply guarded_bind; [apply guarded_lineCost | intros line_cost].
  apply IH.
Qed.

Lemma guarded_edges (footprint : @Footprint D) : guarded' (edges' footprint).
Proof.
  unfold scorePose_edges.
  apply guarded_bind; [apply guarded_loop | intros footprint_cost].
  apply guarded_bind; [apply guarded_back | intros p0].
  apply guarded_bind; [apply guarded_vertexToMap | intros c0].
  apply guarded_bind; [apply guarded_front | intros p1].
  apply guarded_bind; [apply guarded_vertexToMap | intros c1].
  apply guarded_bind; [apply guarded_lineCost | intros line_cost].
  apply guarded_quiet. constructor.
Qed.

Lemma blamed_loop (footprint : @Footprint D) (fuel : nat) (i footprint_cost : Z) :
  0 <= i -> blamed' footprint (result (loop' footprint fuel i footprint_cost)).
Proof.
  revert i footprint_cost.
  induction fuel as [| fuel IH]; intros i footprint_cost Hi; cbn [scorePose_loop];
    destruct (Z.ltb_spec i (size_minus_one (Z.of_nat (List.length footprint))))
      as [Hlt | Hge]; try exact I.
  assert (footprint <> [] -> i + 1 < Z.of_nat (List.length footprint)) as Hin
    by (intros Hne; rewrite (size_minus_one_nonempty _ Hne) in Hlt; lia).
  pose proof (wrap_unsigned_range (i + 1)) as Hw.
  pose proof (wrap_unsigned_le (i + 1) ltac:(lia)) as Hw'.
  apply blamed_bind;
    [apply blamed_at_index; [lia | intros Hne; specialize (Hin Hne); lia] |].
  intros p0 Hp0. apply at_index_In in Hp0.
  apply blamed_bind; [apply blamed_vertexToMap, Hp0 |].
  intros c0 Hc0. apply vertexToMap_return in Hc0.
  apply blamed_bind;
    [apply blamed_at_index; [lia | intros Hne; specialize (Hin Hne); lia] |].
  intros p1 Hp1. apply at_index_In in Hp1.
  apply blamed_bind; [apply blamed_vertexToMap, Hp1 |].
  intros c1 Hc1. apply vertexToMap_return in Hc1.
  apply blamed_bind; [apply (blamed_lineCost _ p0 p1); assumption |].
  intros line_cost _. apply IH. lia.
Qed.

Lemma blamed_edges (footprint : @Footprint D) :
  blamed' footprint (result (edges' footprint)).
Proof.
  unfold scorePose_edges.
  apply blamed_bind; [apply blamed_loop; lia |]. intros footprint_cost _.
  apply blamed_bind; [apply blamed_back |]. intros p0 Hp0. apply back_In in Hp0.
  apply blamed_bind; [apply blamed_vertexToMap, Hp0 |].
  intros c0 Hc0. apply vertexToMap_return in Hc0.
  apply blamed_bind; [apply blamed_front |]. intros p1 Hp1. apply front_In in Hp1.
  apply blamed_bind; [apply blamed_vertexToMap, Hp1 |].
  intros c1 Hc1. apply vertexToMap_return in Hc1.
  apply blamed_bind; [apply (blamed_lineCost _ p0 p1); assumption |].
  intros line_cost _. exact I.
Qed.

Lemma skipn_nth_error {A} (l : list A) (k : nat) (a : A) :
  nth_error l k = Some a -> skipn k l = a :: skipn (S k) l.
Proof.
  revert k. induction l as [| b l IH]; intros [| k]; cbn; try discriminate.
  - intros [= ->]. reflexivity.
  - intros H. rewrite (IH k H). reflexivity.
Qed.

Lemma loop_edges_cost (footprint : @Footprint D) (fuel : nat) (i footprint_cost : Z) :
  Z.of_nat (List.length footprint) <= 2 ^ 32 ->
  0 <= i < Z.of_nat (List.length footprint) ->
  Z.of_nat (List.length footprint) - 1 - i <= Z.of_nat fuel ->
  loop' footprint fuel i footprint_cost =
  edges_cost' (skipn (Z.to_nat i) footprint) footprint_cost.
Proof.
  intros Hsize. revert i footprint_cost.
  induction fuel as [| fuel IH]; intros i footprint_cost Hi Hfuel;
    cbn [scorePose_loop];
    (assert (footprint <> []) as Hne by (intros ->; cbn in Hi; lia));
    rewrite (size_minus_one_nonempty _ Hne);
    destruct (Z.ltb_spec i (Z.of_nat (List.length footprint) - 1)) as [Hlt | Hge];
    try lia.
  1, 3: assert (List.length (skipn (Z.to_nat i) footprint) = 1%nat) as Hlen
      by (rewrite length_skipn; lia);
    destruct (skipn (Z.to_nat i) footprint) as [| a [| b r]];
      try discriminate Hlen; reflexivity.
  unfold at_index.
  rewrite (wrap_unsigned_small (i + 1)) by lia.
  destruct (nth_error footprint (Z.to_nat i)) as [p0 |] eqn:H0;
    [| apply nth_error_None in H0; lia].
  destruct (nth_error footprint (Z.to_nat (i + 1))) as [p1 |] eqn:H1;
    [| apply nth_error_None in H1; lia].
  replace (Z.to_nat (i + 1)) with (S (Z.to_nat i)) in * by lia.
  rewrite (skipn_nth_error _ _ _ H0), (skipn_nth_error _ _ _ H1).
  cbn [edges_cost]. rewrite bind_ret.
  apply bind_ext. intros c0 _. rewrite bind_ret. apply bind_ext. intros c1 _.
  apply bind_ext. intros line_cost _.
  rewrite IH by lia.
  replace (Z.to_nat (i + 1)) with (S (Z.to_nat i)) by lia.
  rewrite (skipn_nth_error _ _ _ H1). reflexivity.
Qed.

Lemma result_bind_never {A B} (m : M A) (k : A -> M B) :
  (forall a v, result (k a) <> Return v) -> forall v, result (bind m k) <> Return v.
Proof.
  intros H v. rewrite result_bind.
  destruct (result m) as [a | e |]; [apply H | discriminate | discriminate].
Qed.

(** With more than [2^32] edges before the closing one, the 32-bit counter
    wraps before it reaches the bound: the loop never leaves normally. *)
Lemma loop_wraps (footprint : @Footprint D) (fuel : nat) (i footprint_cost v : Z) :
  2 ^ 32 <= size_minus_one (Z.of_nat (List.length footprint)) ->
  0 <= i < 2 ^ 32 ->
  result (loop' footprint fuel i footprint_cost) <> Return v.
Proof.
  intros Hbig. revert i footprint_cost v.
  induction fuel as [| fuel IH]; intros i footprint_cost v Hi; cbn [scorePose_loop];
    destruct (Z.ltb_spec i (size_minus_one (Z.of_nat (List.length footprint))));
    try lia; [discriminate |].
  revert v.
  apply result_bind_never; intros p0. apply result_bind_never; intros c0.
  apply result_bind_never; intros p1. apply result_bind_never; intros c1.
  apply result_bind_never; intros line_cost v.
  apply IH, wrap_unsigned_range.
Qed.

(** *** Normal returns *)

Lemma fold_max_spec (l : list Z) (a : Z) :
  a <= fold_left Z.max l a /\
  Forall (fun x => x <= fold_left Z.max l a) l /\
  (fold_left Z.max l a = a \/ In (fold_left Z.max l a) l).
Proof.
  revert a. induction l as [| x l IH]; intros a; cbn [fold_left].
  - repeat split; [lia | constructor | left; reflexivity].
  - destruct (IH (Z.max a x)) as (Hle & Hall & Hin).
    repeat split; [lia | constructor; [lia | exact Hall] |].
    destruct Hin as [Heq | Hin]; [| right; right; exact Hin].
    rewrite Heq. destruct (Z.max_spec a x) as [[_ ->] | [_ ->]];
      [right; left; reflexivity | left; reflexivity].
Qed.

Lemma fold_max_is_maximum (l : list Z) :
  l <> [] -> Forall (fun x => 0 <= x) l -> is_maximum (fold_left Z.max l 0) l.
Proof.
  intros Hne Hpos. destruct (fold_max_spec l 0) as (Hle & Hall & Hin).
  split; [| exact Hall].
  destruct Hin as [Heq | Hin]; [| exact Hin].
  destruct l as [| x l]; [contradiction |].
  rewrite Heq in *. inversion Hpos; subst. inversion Hall; subst.
  left. lia.
Qed.

Lemma is_maximum_nonneg (v : Z) (cells : list (Z * Z)) :
  is_maximum v (map cost cells) -> 0 <= v < 256.
Proof.
  intros [Hin _]. apply in_map_iff in Hin as (c & <- & _). apply cost_range.
Qed.

Lemma line_cells_nonempty (x0 y0 x1 y1 : Z) : line_cells x0 y0 x1 y1 <> [].
Proof. unfold line_cells. cbn [seq map]. discriminate. Qed.

Lemma lineCost_return (x0 x1 y0 y1 v : Z) :
  result (lineCost' x0 x1 y0 y1) = Return v ->
  exists cells,
    LineIterator.rasterize x0 y0 x1 y1 = Some cells /\
    Forall (fun c => sentinel (cost c) = false) cells /\
    is_maximum v (map cost cells).
Proof.
  rewrite lineCost_cells. intros Hr.
  pose proof (cells_cost_result (line_cells x0 y0 x1 y1) 0) as H.
  rewrite Hr in H. destruct H as [Hall ->].
  exists (line_cells x0 y0 x1 y1).
  split; [apply rasterize_line_cells | split; [exact Hall |]].
  apply fold_max_is_maximum.
  - intros E. apply map_eq_nil in E. exact (line_cells_nonempty _ _ _ _ E).
  - apply Forall_forall. intros z Hz.
    apply in_map_iff in Hz as (c & <- & _). apply cost_range.
Qed.

Lemma lineCost_terminates (x0 x1 y0 y1 : Z) :
  result (lineCost' x0 x1 y0 y1) <> Diverge.
Proof.
  rewrite lineCost_cells. intros Hr.
  pose proof (cells_cost_result (line_cells x0 y0 x1 y1) 0) as H.
  rewrite Hr in H. exact H.
Qed.

Lemma vertexToMap_terminates (p : Point) (msg : string) :
  result (vertexToMap self costmap_ p msg) <> Diverge.
Proof.
  unfold vertexToMap.
  destruct (worldToMap costmap_ (point_x p) (point_y p)); cbn; discriminate.
Qed.

Lemma edge_cost_return (p0 p1 : Point) (msg0 msg1 : string) (v : Z) :
  result (edge_cost' p0 p1 msg0 msg1) = Return v ->
  edge_scored LETHAL_OBSTACLE NO_INFORMATION costmap_ (p0, p1) v.
Proof.
  unfold edge_cost. rewrite result_bind.
  destruct (result (vertexToMap self costmap_ p0 msg0)) as [c0 | |] eqn:H0;
    try discriminate.
  rewrite result_bind.
  destruct (result (vertexToMap self costmap_ p1 msg1)) as [c1 | |] eqn:H1;
    try discriminate.
  intros Hline. apply lineCost_return in Hline as (cells & Hcells & Hall & Hmax).
  exists cells. split; [| split; assumption].
  exists c0, c1. cbn [fst snd].
  split; [eapply vertexToMap_return, H0 |].
  split; [eapply vertexToMap_return, H1 | exact Hcells].
Qed.

Lemma edge_cost_terminates (p0 p1 : Point) (msg0 msg1 : string) :
  result (edge_cost' p0 p1 msg0 msg1) <> Diverge.
Proof.
  unfold edge_cost. rewrite result_bind.
  pose proof (vertexToMap_terminates p0 msg0).
  destruct (result (vertexToMap self costmap_ p0 msg0)) as [c0 | |];
    try congruence.
  rewrite result_bind.
  pose proof (vertexToMap_terminates p1 msg1).
  destruct (result (vertexToMap self costmap_ p1 msg1)) as [c1 | |];
    try congruence.
  apply lineCost_terminates.
Qed.

Lemma edges_cost_step (p0 p1 : Point) (rest : @Footprint D) (footprint_cost : Z) :
  edges_cost' (p0 :: p1 :: rest) footprint_cost =
  (line_cost <- edge_cost' p0 p1 "Footprint Goes Off Grid at map."
                          "Footprint Goes Off Grid." ;;
   edges_cost' (p1 :: rest) (Z.max line_cost footprint_cost)).
Proof.
  unfold edge_cost. rewrite bind_bind.
  change (edges_cost' (p0 :: p1 :: rest) footprint_cost)
    with (c0 <- vertexToMap self costmap_ p0 "Footprint Goes Off Grid at map." ;;
          c1 <- vertexToMap self costmap_ p1 "Footprint Goes Off Grid." ;;
          line_cost <- lineCost' (to_int (fst c0)) (to_int (fst c1))
                                 (to_int (snd c0)) (to_int (snd c1)) ;;
          edges_cost' (p1 :: rest) (Z.max line_cost footprint_cost)).
  apply bind_ext. intros c0 _. now rewrite bind_bind.
Qed.

Lemma edges_cost_return (vertices : @Footprint D) (footprint_cost v : Z) :
  result (edges_cost' vertices footprint_cost) = Return v ->
  exists maxima,
    Forall2 (edge_scored LETHAL_OBSTACLE NO_INFORMATION costmap_)
            (consecutive vertices) maxima /\
    v = fold_left Z.max maxima footprint_cost.
Proof.
  revert footprint_cost.
  induction vertices as [| p0 [| p1 rest] IH]; intros footprint_cost.
  1, 2: intros [= <-]; exists []; split; [constructor | reflexivity].
  rewrite edges_cost_step, result_bind.
  destruct (result (edge_cost' p0 p1 _ _)) as [m | |] eqn:Hedge; try discriminate.
  intros Hrest. apply IH in Hrest as (maxima & Hall & ->).
  exists (m :: maxima). split.
  - cbn [consecutive]. constructor; [apply (edge_cost_return _ _ _ _ _ Hedge) | exact Hall].
  - cbn [fold_left]. now rewrite Z.max_comm.
Qed.

Lemma edges_cost_terminates (vertices : @Footprint D) (footprint_cost : Z) :
  result (edges_cost' vertices footprint_cost) <> Diverge.
Proof.
  revert footprint_cost.
  induction vertices as [| p0 [| p1 rest] IH]; intros footprint_cost;
    try discriminate.
  rewrite edges_cost_step, result_bind.
  pose proof (edge_cost_terminates p0 p1 "Footprint Goes Off Grid at map."
                "Footprint Goes Off Grid.").
  destruct (result (edge_cost' p0 p1 _ _)); [apply IH | discriminate | congruence].
Qed.

(** *** The whole boundary *)

Lemma edges_closed_form (footprint : @Footprint D) :
  footprint <> [] ->
  Z.of_nat (List.length footprint) <= 2 ^ 32 ->
  edges' footprint =
  (footprint_cost <- edges_cost' footprint 0 ;;
   line_cost <- edge_cost' (last footprint (hd {| point_x := dzero; point_y := dzero |} footprint))
                          (hd {| point_x := dzero; point_y := dzero |} footprint)
                          "Footprint Goes Off Grid." "Footprint Goes Off Grid." ;;
   ret (Z.max line_cost footprint_cost)).
Proof.
  intros Hne Hsize. destruct footprint as [| p rest]; [contradiction |].
  unfold scorePose_edges.
  rewrite loop_edges_cost by (cbn [List.length] in *; lia).
  change (skipn (Z.to_nat 0) (p :: rest)) with (p :: rest).
  apply bind_ext. intros footprint_cost _.
  cbn [back front hd]. rewrite bind_ret. unfold edge_cost.
  rewrite bind_bind.
  replace (last (p :: rest) p) with (last rest p)
    by (destruct rest; reflexivity).
  apply bind_ext. intros c0 _.
  rewrite bind_ret, bind_bind. reflexivity.
Qed.

Lemma edges_return_size (footprint : @Footprint D) (v : Z) :
  result (edges' footprint) = Return v ->
  footprint <> [] /\ Z.of_nat (List.length footprint) <= 2 ^ 32.
Proof.
  unfold scorePose_edges. rewrite result_bind.
  destruct (result (loop' footprint _ 0 0)) as [footprint_cost | |] eqn:Hloop;
    try discriminate.
  intros _.
  destruct (Z_lt_le_dec (size_minus_one (Z.of_nat (List.length footprint))) (2 ^ 32))
    as [Hsmall | Hbig].
  - unfold size_minus_one in Hsmall.
    destruct (Z.eqb_spec (Z.of_nat (List.length footprint)) 0) as [E | E]; [lia |].
    split; [intros -> ; apply E; reflexivity | lia].
  - exfalso. revert Hloop. apply loop_wraps; [exact Hbig | lia].
Qed.

Lemma Forall2_edge_scored_nonneg (edges : list (@Point D * @Point D))
  (maxima : list Z) :
  Forall2 (edge_scored LETHAL_OBSTACLE NO_INFORMATION costmap_) edges maxima ->
  Forall (fun m => 0 <= m) maxima.
Proof.
  induction 1 as [| e m edges maxima (cells & _ & _ & Hmax) _ IH]; constructor.
  - apply (is_maximum_nonneg _ _ Hmax).
  - exact IH.
Qed.

(** A normal return of the second half of [scorePose]: every boundary edge
    has been scored, and the value is the largest of the edges' maxima. *)
Lemma edges_return (footprint : @Footprint D) (v : Z) :
  result (edges' footprint) = Return v ->
  exists maxima,
    Forall2 (edge_scored LETHAL_OBSTACLE NO_INFORMATION costmap_)
            (boundary_edges footprint) maxima /\
    is_maximum v maxima.
Proof.
  intros Hr. destruct (edges_return_size _ _ Hr) as [Hne Hsize].
  rewrite (edges_closed_form _ Hne Hsize), result_bind in Hr.
  destruct (result (edges_cost' footprint 0)) as [footprint_cost | |] eqn:Hloop;
    try discriminate.
  rewrite result_bind in Hr.
  destruct (result (edge_cost' _ _ _ _)) as [line_cost | |] eqn:Hclose;
    try discriminate.
  injection Hr as <-.
  apply edges_cost_return in Hloop as (maxima & Hall & ->).
  apply edge_cost_return in Hclose.
  destruct footprint as [| p rest]; [contradiction |].
  replace (last (p :: rest) (hd _ (p :: rest))) with (last rest p) in Hclose
    by (destruct rest; reflexivity).
  cbn [hd] in Hclose.
  assert (Forall2 (edge_scored LETHAL_OBSTACLE NO_INFORMATION costmap_)
            (boundary_edges (p :: rest)) (maxima ++ [line_cost])) as Hedges.
  { unfold boundary_edges. apply Forall2_app; [exact Hall |].
    constructor; [exact Hclose | constructor]. }
  exists (maxima ++ [line_cost]). split; [exact Hedges |].
  replace (Z.max line_cost (fold_left Z.max maxima 0))
    with (fold_left Z.max (maxima ++ [line_cost]) 0)
    by (rewrite fold_left_app; cbn [fold_left]; apply Z.max_comm).
  apply fold_max_is_maximum.
  - destruct maxima; discriminate.
  - apply (Forall2_edge_scored_nonneg _ _ Hedges).
Qed.

Lemma edges_terminates (footprint : @Footprint D) :
  footprint <> [] ->
  Z.of_nat (List.length footprint) <= 2 ^ 32 ->
  result (edges' footprint) <> Diverge.
Proof.
  intros Hne Hsize. rewrite (edges_closed_form _ Hne Hsize), result_bind.
  pose proof (edges_cost_terminates footprint 0).
  destruct (result (edges_cost' footprint 0)); try congruence.
  rewrite result_bind.
  pose proof (edge_cost_terminates
                (last footprint (hd {| point_x := dzero; point_y := dzero |} footprint))
                (hd {| point_x := dzero; point_y := dzero |} footprint)
                "Footprint Goes Off Grid." "Footprint Goes Off Grid.").
  destruct (result (edge_cost' _ _ _ _)); [discriminate | discriminate | congruence].
Qed.

(** *** Exceptions from the boundary *)

Lemma edge_cost_throw (p0 p1 : Point) (msg0 msg1 : string) (e : exn) :
  result (edge_cost' p0 p1 msg0 msg1) = Throw e ->
  (exists msg, e = IllegalTrajectoryException (name_ self) msg) /\
  (worldToMap costmap_ (point_x p0) (point_y p0) = None \/
   worldToMap costmap_ (point_x p1) (point_y p1) = None \/
   exists cells c, edge_cells costmap_ (p0, p1) cells /\ In c cells /\
                   sentinel (cost c) = true).
Proof.
  unfold edge_cost, vertexToMap. rewrite result_bind.
  destruct (worldToMap costmap_ (point_x p0) (point_y p0)) as [c0 |] eqn:H0; cbn [result snd ret];
    [| intros [= <-]; split; [eexists; reflexivity | left; reflexivity]].
  rewrite result_bind.
  destruct (worldToMap costmap_ (point_x p1) (point_y p1)) as [c1 |] eqn:H1; cbn [result snd ret];
    [| intros [= <-]; split; [eexists; reflexivity | right; left; reflexivity]].
  rewrite lineCost_cells. intros Hr.
  pose proof (cells_cost_result
                (line_cells (to_int (fst c0)) (to_int (snd c0))
                            (to_int (fst c1)) (to_int (snd c1))) 0) as H.
  rewrite Hr in H. destruct H as (c & Hin & Hs & ->).
  split; [eexists; reflexivity | right; right].
  exists (line_cells (to_int (fst c0)) (to_int (snd c0))
                     (to_int (fst c1)) (to_int (snd c1))), c.
  split; [| split; assumption].
  exists c0, c1. cbn [fst snd]. repeat split; try assumption.
  apply rasterize_line_cells.
Qed.

Lemma edges_cost_throw (vertices : @Footprint D) (footprint_cost : Z) (e : exn) :
  result (edges_cost' vertices footprint_cost) = Throw e ->
  (exists msg, e = IllegalTrajectoryException (name_ self) msg) /\
  (vertex_off_grid costmap_ vertices \/
   exists edge cells c,
     In edge (consecutive vertices) /\ edge_cells costmap_ edge cells /\
     In c cells /\ sentinel (cost c) = true).
Proof.
  revert footprint_cost.
  induction vertices as [| p0 [| p1 rest] IH]; intros footprint_cost;
    try discriminate.
  rewrite edges_cost_step, result_bind.
  destruct (result (edge_cost' p0 p1 _ _)) as [m | e' |] eqn:Hedge;
    [| | discriminate].
  - intros Hr. destruct (IH _ Hr) as [Hmsg [(p & Hin & Hoff) | (edge & cells & c & Hin & H)]].
    + split; [exact Hmsg | left]. exists p. split; [right; exact Hin | exact Hoff].
    + split; [exact Hmsg | right]. exists edge, cells, c.
      split; [right; exact Hin | exact H].
  - intros [= <-]. destruct (edge_cost_throw _ _ _ _ _ Hedge) as [Hmsg Hcause].
    split; [exact Hmsg |].
    destruct Hcause as [Hoff | [Hoff | (cells & c & H)]].
    + left. exists p0. split; [left; reflexivity | exact Hoff].
    + left. exists p1. split; [right; left; reflexivity | exact Hoff].
    + right. exists (p0, p1), cells, c. split; [left; reflexivity | exact H].
Qed.

Lemma last_hd_In (footprint : @Footprint D) (d : Point) :
  footprint <> [] ->
  In (last footprint (hd d footprint)) footprint /\ In (hd d footprint) footprint /\
  In (last footprint (hd d footprint), hd d footprint) (boundary_edges footprint).
Proof.
  intros Hne. destruct footprint as [| p rest]; [contradiction |]. cbn [hd].
  replace (last (p :: rest) p) with (last rest p) by (destruct rest; reflexivity).
  split; [| split].
  - apply back_In. reflexivity.
  - left. reflexivity.
  - unfold boundary_edges. apply in_or_app. right. left. reflexivity.
Qed.

(** With a size that fits the loop counter, an exception from the second
    half of [scorePose] is an IllegalTrajectory whose cause lies on the
    boundary. *)
Lemma edges_throw (footprint : @Footprint D) (e : exn) :
  footprint <> [] ->
  Z.of_nat (List.length footprint) <= 2 ^ 32 ->
  result (edges' footprint) = Throw e ->
  (exists msg, e = IllegalTrajectoryException (name_ self) msg) /\
  (vertex_off_grid costmap_ footprint \/
   sentinel_on_boundary LETHAL_OBSTACLE NO_INFORMATION costmap_ footprint).
Proof.
  intros Hne Hsize. rewrite (edges_closed_form _ Hne Hsize), result_bind.
  destruct (result (edges_cost' footprint 0)) as [footprint_cost | e' |] eqn:Hloop;
    [| | discriminate].
  - rewrite result_bind.
    destruct (result (edge_cost' _ _ _ _)) as [line_cost | e' |] eqn:Hclose;
      try discriminate.
    intros [= <-]. destruct (edge_cost_throw _ _ _ _ _ Hclose) as [Hmsg Hcause].
    split; [exact Hmsg |].
    destruct (last_hd_In footprint {| point_x := dzero; point_y := dzero |} Hne)
      as (Hlast & Hhd & Hedge).
    destruct Hcause as [Hoff | [Hoff | (cells & c & H)]].
    + left. eexists. split; [exact Hlast | exact Hoff].
    + left. eexists. split; [exact Hhd | exact Hoff].
    + right. eexists. exists cells, c. split; [exact Hedge | exact H].
  - intros [= <-]. destruct (edges_cost_throw _ _ _ Hloop) as [Hmsg Hcause].
    split; [exact Hmsg |].
    destruct Hcause as [Hoff | (edge & cells & c & Hin & H)]; [left; exact Hoff | right].
    exists edge, cells, c. split; [| exact H].
    destruct footprint as [| p rest]; [contradiction |].
    unfold boundary_edges. apply in_or_app. left. exact Hin.
Qed.

(** *** The first half of [scorePose] *)

Local Abbreviation scorePose' := (scorePose LETHAL_OBSTACLE NO_INFORMATION self).

Lemma scorePose_prefix (pose : Pose2D) :
  scorePose' pose =
  match worldToMap costmap_ (pose_x pose) (pose_y pose) with
  | None =>
      ([Log ERROR "Map Cell: [%d, %d]" [ArgUnset; ArgUnset]],
       Throw (IllegalTrajectoryException (name_ self) "Trajectory Goes Off Grid."))
  | Some _ =>
      match getFootprint self with
      | None => ([], Throw (PlannerException "Footprint not available."))
      | Some footprint =>
          footprint_spec <- unorientFootprint self footprint ;;
          edges' (transformFootprint (pose_x pose) (pose_y pose) (pose_theta pose)
                                     footprint_spec)
      end
  end.
Proof.
  unfold scorePose, costmap_sub_getCostmap. rewrite Hcostmap.
  cbn [try_catch ret]. change ([], Return costmap_) with (ret costmap_).
  rewrite bind_ret.
  destruct (worldToMap costmap_ (pose_x pose) (pose_y pose)); [| reflexivity].
  destruct (getFootprint self); reflexivity.
Qed.

Lemma unorientFootprint_cases (footprint : @Footprint D) :
  match tf_transform self with
  | Transformed x y yaw =>
      unorientFootprint self footprint =
      ret (transformFootprint dzero dzero (dneg yaw)
             (transformFootprint (dneg x) (dneg y) dzero footprint))
  | _ =>
      result (unorientFootprint self footprint) =
        Throw (PlannerException "Robot pose unavailable.") /\
      exists fmt w, events (unorientFootprint self footprint) =
                    [Log ERROR fmt [ArgStr w]]
  end.
Proof.
  unfold unorientFootprint, getRobotPose.
  destruct (tf_transform self); cbn; try reflexivity;
    (split; [reflexivity | eexists; eexists; reflexivity]).
Qed.

Lemma scorePose_laid_down (pose : Pose2D) (footprint : @Footprint D) :
  laid_down self pose costmap_ footprint ->
  scorePose' pose = edges' footprint.
Proof.
  intros (provided & rx & ry & ryaw & _ & Hpose & Hfp & Htf & ->).
  rewrite scorePose_prefix.
  destruct (worldToMap costmap_ (pose_x pose) (pose_y pose)); [| contradiction].
  rewrite Hfp.
  pose proof (unorientFootprint_cases provided) as Hun. rewrite Htf in Hun.
  rewrite Hun, bind_ret. reflexivity.
Qed.

End CheckerFacts.

(** ** The checker as a whole *)

Lemma Forall2_In_l {A B} (R : A -> B -> Prop) (l : list A) (l' : list B) (a : A) :
  Forall2 R l l' -> In a l -> exists b, In b l' /\ R a b.
Proof.
  induction 1 as [| x y l l' Hxy _ IH]; intros Hin; [contradiction |].
  destruct Hin as [-> | Hin].
  - exists y. split; [left; reflexivity | exact Hxy].
  - destruct (IH Hin) as (b & Hb & Hab). exists b. split; [right |]; assumption.
Qed.

Lemma Forall2_In_r {A B} (R : A -> B -> Prop) (l : list A) (l' : list B) (b : B) :
  Forall2 R l l' -> In b l' -> exists a, In a l /\ R a b.
Proof.
  induction 1 as [| x y l l' Hxy _ IH]; intros Hin; [contradiction |].
  destruct Hin as [-> | Hin].
  - exists x. split; [left; reflexivity | exact Hxy].
  - destruct (IH Hin) as (a & Ha & Hab). exists a. split; [right |]; assumption.
Qed.

Section Claims.

Context {D : Type} {ops : DoubleOps D}.
Variables LETHAL_OBSTACLE NO_INFORMATION : Z.
Variable self : @Collaborators D.

Local Abbreviation scorePose' := (scorePose LETHAL_OBSTACLE NO_INFORMATION self).
Local Abbreviation isCollisionFree' :=
  (isCollisionFree LETHAL_OBSTACLE NO_INFORMATION self).
Local Abbreviation edges' := (scorePose_edges LETHAL_OBSTACLE NO_INFORMATION self).
Local Abbreviation Illegal := (IllegalTrajectoryException (name_ self)).

(** The five ways through the first half of [scorePose]. *)
Lemma scorePose_outcome (pose : Pose2D) :
  (exists w, getCostmap self = inl w /\
             scorePose' pose = ([], Throw (PlannerException w))) \/
  (exists costmap_,
      getCostmap self = inr costmap_ /\
      ((worldToMap costmap_ (pose_x pose) (pose_y pose) = None /\
        scorePose' pose =
        ([Log ERROR "Map Cell: [%d, %d]" [ArgUnset; ArgUnset]],
         Throw (Illegal "Trajectory Goes Off Grid."))) \/
       (worldToMap costmap_ (pose_x pose) (pose_y pose) <> None /\
        getFootprint self = None /\
        scorePose' pose = ([], Throw (PlannerException "Footprint not available."))) \/
       (worldToMap costmap_ (pose_x pose) (pose_y pose) <> None /\
        getFootprint self <> None /\ tf_failed (tf_transform self) /\
        result (scorePose' pose) = Throw (PlannerException "Robot pose unavailable.") /\
        exists fmt w, events (scorePose' pose) = [Log ERROR fmt [ArgStr w]]) \/
       (exists footprint,
           laid_down self pose costmap_ footprint /\
           scorePose' pose = edges' costmap_ footprint))).
Proof.
  destruct (getCostmap self) as [w | costmap_] eqn:Hcm.
  - left. exists w. split; [reflexivity |].
    unfold scorePose, costmap_sub_getCostmap. rewrite Hcm. reflexivity.
  - right. exists costmap_. split; [reflexivity |].
    rewrite (scorePose_prefix _ _ _ _ Hcm).
    destruct (worldToMap costmap_ (pose_x pose) (pose_y pose)) as [c |] eqn:Hw;
      [right | left; split; reflexivity].
    destruct (getFootprint self) as [provided |] eqn:Hfp;
      [right | left; repeat split; discriminate].
    pose proof (unorientFootprint_cases self provided) as Hun.
    destruct (tf_transform self) as [rx ry ryaw | w | w | w] eqn:Htf.
    2-4: left; destruct Hun as (Hr & fmt & w' & Hev);
      repeat split; try discriminate;
      [rewrite result_bind, Hr; reflexivity
      | exists fmt, w'; rewrite events_bind, Hr, Hev; reflexivity].
    right. exists (projected provided rx ry ryaw pose). split.
    + exists provided, rx, ry, ryaw. rewrite Hw.
      repeat split; try assumption; discriminate.
    + rewrite Hun, bind_ret. reflexivity.
Qed.

Lemma scorePose_return (pose : Pose2D) (v : Z) :
  result (scorePose' pose) = Return v ->
  exists costmap_ footprint,
    laid_down self pose costmap_ footprint /\
    result (edges' costmap_ footprint) = Return v.
Proof.
  intros Hr.
  destruct (scorePose_outcome pose)
    as [(w & _ & E) | (cm & Hcm & [(_ & E) | [(_ & _ & E) | [(_ & _ & _ & E & _) | (fp & Hlaid & E)]]])];
    rewrite E in Hr; try discriminate Hr.
  exists cm, fp. split; assumption.
Qed.

Lemma laid_down_costmap (pose : Pose2D) (costmap_ : Costmap2D)
  (footprint : Footprint) :
  laid_down self pose costmap_ footprint -> getCostmap self = inr costmap_.
Proof. intros (? & ? & ? & ? & H & _). exact H. Qed.

Lemma scorePose_return_scored (pose : Pose2D) (v : Z) :
  result (scorePose' pose) = Return v ->
  exists costmap_ footprint maxima,
    laid_down self pose costmap_ footprint /\
    Forall2 (edge_scored LETHAL_OBSTACLE NO_INFORMATION costmap_)
            (boundary_edges footprint) maxima /\
    is_maximum v maxima.
Proof.
  intros Hr. apply scorePose_return in Hr as (cm & fp & Hlaid & Hr).
  apply (edges_return _ _ _ _ (laid_down_costmap _ _ _ Hlaid)) in Hr
    as (maxima & Hall & Hmax).
  exists cm, fp, maxima. split; [exact Hlaid | split; [exact Hall | exact Hmax]].
Qed.

(** A score is the cost of a cell that was looked up and holds no
    sentinel. *)
Lemma scorePose_return_cell (pose : Pose2D) (v : Z) :
  result (scorePose' pose) = Return v ->
  exists costmap_ c,
    getCostmap self = inr costmap_ /\
    v = cost_at costmap_ c /\
    is_sentinel LETHAL_OBSTACLE NO_INFORMATION (cost_at costmap_ c) = false.
Proof.
  intros Hr.
  apply scorePose_return_scored in Hr as (cm & fp & maxima & Hlaid & Hall & Hin & _).
  destruct (Forall2_In_r _ _ _ _ Hall Hin) as (e & _ & cells & _ & Hclean & Hv & _).
  apply in_map_iff in Hv as (c & <- & Hc).
  exists cm, c. split; [apply (laid_down_costmap _ _ _ Hlaid) |].
  split; [reflexivity |].
  apply (proj1 (Forall_forall _ _) Hclean c Hc).
Qed.

(** C1.  Whenever [scorePose] returns normally, the value returned is the
    maximum, over all boundary edges of the footprint projected to the pose
    (vertex i to vertex i+1 for every i, and the closing edge from the last
    vertex to the first), of the maximum point cost over the cells visited
    when that edge is rasterized. *)
Theorem scorePose_is_boundary_maximum (pose : Pose2D) (v : Z) :
  result (scorePose' pose) = Return v ->
  exists costmap_ footprint maxima,
    laid_down self pose costmap_ footprint /\
    Forall2 (edge_scored LETHAL_OBSTACLE NO_INFORMATION costmap_)
            (boundary_edges footprint) maxima /\
    is_maximum v maxima.
Proof.
  exact (scorePose_return_scored pose v).
Qed.

Lemma isCollisionFree_eq (pose : Pose2D) :
  isCollisionFree' pose =
  match scorePose' pose with
  | (t, Return score) => (t, Return (negb (score <? 0)))
  | (t, Throw (IllegalTrajectoryException n d)) =>
      (t ++ [Log ERROR "%s" [ArgStr d]], Return false)
  | (t, Throw (PlannerException d)) =>
      (t ++ [Log ERROR "%s" [ArgStr d]], Return false)
  | (t, Throw e) => (t, Throw e)
  | (t, Diverge) => (t, Diverge)
  end.
Proof.
  unfold isCollisionFree.
  destruct (scorePose' pose) as [t [score | [n d | d | w |] |]]; cbn;
    try reflexivity.
  destruct (score <? 0); cbn; now rewrite app_nil_r.
Qed.

(** C3.  [isCollisionFree] returns true exactly when [scorePose] returns
    normally with a value that is not negative.  An IllegalTrajectory or a
    PlannerException thrown by [scorePose] is caught: its message is
    reported through the logger and false is returned.  Any other exception
    leaves [isCollisionFree] as [scorePose] threw it. *)
Theorem isCollisionFree_catches (pose : Pose2D) :
  (result (isCollisionFree' pose) = Return true <->
   exists score, result (scorePose' pose) = Return score /\ 0 <= score) /\
  (forall e, result (scorePose' pose) = Throw e ->
     match e with
     | IllegalTrajectoryException _ _ | PlannerException _ =>
         isCollisionFree' pose =
         (events (scorePose' pose) ++ [Log ERROR "%s" [ArgStr (what e)]],
          Return false)
     | _ => isCollisionFree' pose = (events (scorePose' pose), Throw e)
     end).
Proof.
  rewrite isCollisionFree_eq.
  destruct (scorePose' pose) as [t [score | [n d | d | w |] |]]; cbn; split;
    try (split; [discriminate | intros (? & [=] & _)]);
    try (intros e [= <-]; reflexivity);
    try discriminate.
  split.
  - intros [= H]. exists score. split; [reflexivity |].
    destruct (Z.ltb_spec score 0); [discriminate H | lia].
  - intros (? & [= <-] & Hpos).
    destruct (Z.ltb_spec score 0); [lia | reflexivity].
Qed.

(** C8.  Whenever [scorePose] returns normally the score is a cost between
    0 and 255, in particular it is never negative; [isCollisionFree] then
    returns true, its score-below-zero branch being out of reach. *)
Theorem scorePose_nonnegative (pose : Pose2D) (v : Z) :
  result (scorePose' pose) = Return v ->
  0 <= v < 256 /\
  (v <? 0) = false /\
  result (isCollisionFree' pose) = Return true.
Proof.
  intros Hr.
  assert (0 <= v < 256) as Hv.
  { destruct (scorePose_return_cell pose v Hr) as (cm & c & _ & -> & _).
    apply cost_range. }
  assert ((v <? 0) = false) as Hneg by (apply Z.ltb_ge; lia).
  split; [exact Hv | split; [exact Hneg |]].
  rewrite isCollisionFree_eq.
  destruct (scorePose' pose) as [t r]. cbn in Hr. subst r.
  rewrite Hneg. reflexivity.
Qed.

Lemma scorePose_laid_down_eq (pose : Pose2D) (costmap_ : Costmap2D)
  (footprint : Footprint) :
  laid_down self pose costmap_ footprint ->
  scorePose' pose = edges' costmap_ footprint.
Proof.
  intros H. apply scorePose_laid_down; [apply (laid_down_costmap _ _ _ H) | exact H].
Qed.

Lemma laid_down_empty (pose : Pose2D) (costmap_ : Costmap2D)
  (footprint : Footprint) :
  laid_down self pose costmap_ footprint ->
  (footprint = [] <-> getFootprint self = Some []).
Proof.
  intros (provided & rx & ry & ryaw & _ & _ & Hfp & _ & ->).
  rewrite Hfp. unfold projected, transformFootprint. split.
  - intros H. repeat apply map_eq_nil in H. now subst.
  - intros [= ->]. reflexivity.
Qed.

(** C10.  For the empty footprint the loop bound [footprint.size() - 1]
    wraps to [2^64 - 1].  [scorePose] accesses a vertex that does not exist
    only when the provider's footprint is empty; and once the costmap, the
    cell of the pose, the footprint and the robot pose have been obtained,
    the access out of range happens exactly when the footprint has no
    vertex: with at least one vertex every index used is within bounds. *)
Theorem out_of_range_iff_empty_footprint (pose : Pose2D) :
  size_minus_one (Z.of_nat (List.length (@nil (@Point D)))) = 2 ^ 64 - 1 /\
  (result (scorePose' pose) = Throw OutOfRange -> getFootprint self = Some []) /\
  (forall costmap_ footprint,
      laid_down self pose costmap_ footprint ->
      (result (scorePose' pose) = Throw OutOfRange <-> footprint = []) /\
      (footprint = [] <-> getFootprint self = Some [])).
Proof.
  assert (forall costmap_ footprint,
             laid_down self pose costmap_ footprint ->
             (result (scorePose' pose) = Throw OutOfRange <-> footprint = []))
    as Hiff.
  { intros cm fp Hlaid. rewrite (scorePose_laid_down_eq _ _ _ Hlaid). split.
    - intros Hr.
      pose proof (blamed_edges LETHAL_OBSTACLE NO_INFORMATION self cm
                    (laid_down_costmap _ _ _ Hlaid) fp) as Hb.
      rewrite Hr in Hb. exact Hb.
    - intros ->. reflexivity. }
  split; [reflexivity |]. split.
  - intros Hr.
    destruct (scorePose_outcome pose)
      as [(w & _ & E) | (cm & Hcm & [(_ & E) | [(_ & _ & E) | [(_ & _ & _ & E & _) | (fp & Hlaid & E)]]])];
      try (rewrite E in Hr; discriminate Hr).
    apply (laid_down_empty _ _ _ Hlaid), (Hiff _ _ Hlaid), Hr.
  - intros cm fp Hlaid. split; [apply (Hiff _ _ Hlaid) | apply (laid_down_empty _ _ _ Hlaid)].
Qed.

Lemma line_cells_point (x y : Z) : line_cells x y x y = [(x, y)].
Proof.
  unfold line_cells, line_major. rewrite !Z.sub_diag. cbn [Z.abs Z.max Z.to_nat seq map].
  rewrite line_at_0; [unfold line_cell, LineIterator.make; rewrite !Z.sub_diag; reflexivity |].
  destruct (make_fresh x y x y) as (_ & _ & _ & H). exact H.
Qed.

(** C9 (amended).  Once the costmap, the cell of the pose, the footprint and
    the robot pose have been obtained: with an empty footprint [scorePose]
    fails on an access out of range, which is neither IllegalTrajectory nor
    PlannerException, and [isCollisionFree] lets that failure through
    unchanged.  A footprint of one vertex is not rejected: it is scored as
    the closing edge from the vertex to itself, that is, by the one cell of
    the vertex. *)
Theorem footprint_below_two_vertices (pose : Pose2D) (costmap_ : Costmap2D)
  (footprint : Footprint) :
  laid_down self pose costmap_ footprint ->
  (footprint = [] ->
   scorePose' pose = ([], Throw OutOfRange) /\
   isCollisionFree' pose = ([], Throw OutOfRange)) /\
  (forall p c,
      footprint = [p] ->
      worldToMap costmap_ (point_x p) (point_y p) = Some c ->
      let cell := (to_int (fst c), to_int (snd c)) in
      result (scorePose' pose) =
      if is_sentinel LETHAL_OBSTACLE NO_INFORMATION (cost_at costmap_ cell)
      then Throw (Illegal (sentinel_message LETHAL_OBSTACLE (cost_at costmap_ cell)))
      else Return (cost_at costmap_ cell)).
Proof.
  intros Hlaid. pose proof (laid_down_costmap _ _ _ Hlaid) as Hcm. split.
  - intros ->.
    assert (scorePose' pose = ([], Throw OutOfRange)) as E
      by (rewrite (scorePose_laid_down_eq _ _ _ Hlaid); reflexivity).
    split; [exact E |]. rewrite isCollisionFree_eq, E. reflexivity.
  - intros p c -> Hc cell.
    rewrite (scorePose_laid_down_eq _ _ _ Hlaid).
    unfold scorePose_edges. cbn [scorePose_loop List.length back front last].
    change (0 <? size_minus_one (Z.of_nat 1)) with false. cbv iota.
    do 2 run_ret.
    unfold vertexToMap. rewrite Hc. do 2 run_ret. rewrite Hc. run_ret.
    rewrite lineCost_cells, line_cells_point.
    cbn [cells_cost fst snd]. rewrite !result_bind.
    rewrite (pointCost_eq _ _ _ _ Hcm). fold cell.
    pose proof (cost_range costmap_ cell) as Hrange.
    destruct (is_sentinel _ _ (cost_at costmap_ cell)); cbn [result snd ret];
      [reflexivity |].
    f_equal. destruct (Z.ltb_spec 0 (cost_at costmap_ cell)); lia.
Qed.

(** C9, as stated, fails for a footprint of one vertex: in free space it is
    scored 0 and the pose is reported free of collision. *)
Lemma single_vertex_footprint_is_scored :
  Scene.score (Scene.checker Scene.free_space (Some [Scene.point 0 0]))
              (Scene.pose 5 5 0) = ([GetCost 5 5], Return 0) /\
  Scene.collision_free (Scene.checker Scene.free_space (Some [Scene.point 0 0]))
                       (Scene.pose 5 5 0) = ([GetCost 5 5], Return true).
Proof. split; vm_compute; reflexivity. Qed.

(** *** Sentinel cells *)

Local Abbreviation hits x y :=
  (Log DEBUG "Map Cell: [%d, %d]" [ArgInt x; ArgInt y]).

(** In a trace that ends with a lookup and one log line, a lookup that is
    not harmless, after harmless events only, is that last lookup. *)
Lemma last_lookup (harmless : Event -> Prop) (pre pre' post : list Event)
  (ev ev' line : Event) :
  pre ++ ev :: post = pre' ++ [ev'; line] ->
  ~ harmless ev -> Forall harmless pre' -> harmless line ->
  pre = pre' /\ ev = ev' /\ post = [line].
Proof.
  revert pre'. induction pre as [| a pre IH]; intros pre' Heq Hev Hpre Hline.
  - destruct pre' as [| a' pre']; cbn in Heq.
    + injection Heq as -> ->. repeat split.
    + injection Heq as -> _. inversion Hpre; subst. contradiction.
  - destruct pre' as [| a' pre']; cbn in Heq.
    + injection Heq as -> Heq.
      destruct pre as [| b pre]; cbn in Heq.
      * injection Heq as -> _. contradiction.
      * injection Heq as _ Heq. destruct pre; discriminate Heq.
    + injection Heq as -> Heq. inversion Hpre; subst.
      destruct (IH pre' Heq Hev) as (-> & -> & ->); try assumption.
      repeat split.
Qed.

Lemma guarded_sentinel_lookup {A} (costmap_ : Costmap2D) (m : M A)
  (pre post : list Event) (mx my : Z) :
  guarded LETHAL_OBSTACLE NO_INFORMATION self costmap_ m ->
  events m = pre ++ GetCost mx my :: post ->
  is_sentinel LETHAL_OBSTACLE NO_INFORMATION (stored_cost costmap_ mx my) = true ->
  result m = Throw (Illegal (sentinel_message LETHAL_OBSTACLE
                               (stored_cost costmap_ mx my))) /\
  exists x y, post = [hits x y].
Proof.
  intros [(pre' & mx' & my' & x & y & Hev & Hpre & Hs & Hr) | Hclean] Heq Hsent.
  - rewrite Hev in Heq. symmetry in Heq.
    apply (last_lookup (harmless LETHAL_OBSTACLE NO_INFORMATION costmap_)) in Heq
      as (_ & [= -> ->] & ->); try assumption.
    + split; [exact Hr | exists x, y; reflexivity].
    + cbn. rewrite Hsent. discriminate.
    + exact I.
  - rewrite Heq in Hclean. apply Forall_app in Hclean as [_ Hclean].
    inversion Hclean as [| ? ? Hhead _]. cbn in Hhead. congruence.
Qed.

Lemma scorePose_guarded (pose : Pose2D) (costmap_ : Costmap2D) :
  getCostmap self = inr costmap_ ->
  guarded LETHAL_OBSTACLE NO_INFORMATION self costmap_ (scorePose' pose).
Proof.
  intros Hcm.
  destruct (scorePose_outcome pose)
    as [(w & _ & E) | (cm & Hcm' & [(_ & E) | [(_ & _ & E) | [(_ & _ & _ & _ & fmt & w & E) | (fp & Hlaid & E)]]])].
  1-3: rewrite E; right; repeat constructor.
  - right. rewrite E. repeat constructor.
  - rewrite E. assert (cm = costmap_) as -> by congruence.
    apply guarded_edges, Hcm.
Qed.

(** C2.  Every lookup of a cell whose cost is a sentinel ends [scorePose]
    at once: nothing follows the lookup but the debug line of [pointCost],
    and the call throws IllegalTrajectory, with the message "Trajectory Hits
    Obstacle." for LETHAL_OBSTACLE and "Trajectory Hits Unknown Region." for
    NO_INFORMATION.  A value that [scorePose] returns is never one of the two
    sentinels. *)
Theorem sentinel_lookup_aborts (pose : Pose2D) (costmap_ : Costmap2D) :
  LETHAL_OBSTACLE <> NO_INFORMATION ->
  getCostmap self = inr costmap_ ->
  (forall pre mx my post,
      events (scorePose' pose) = pre ++ GetCost mx my :: post ->
      (stored_cost costmap_ mx my = LETHAL_OBSTACLE ->
       result (scorePose' pose) = Throw (Illegal "Trajectory Hits Obstacle.") /\
       exists x y, post = [hits x y]) /\
      (stored_cost costmap_ mx my = NO_INFORMATION ->
       result (scorePose' pose) = Throw (Illegal "Trajectory Hits Unknown Region.") /\
       exists x y, post = [hits x y])) /\
  (forall v, result (scorePose' pose) = Return v ->
             v <> LETHAL_OBSTACLE /\ v <> NO_INFORMATION).
Proof.
  intros Hdistinct Hcm. split.
  - intros pre mx my post Hev.
    pose proof (guarded_sentinel_lookup _ _ _ _ _ _
                  (scorePose_guarded pose costmap_ Hcm) Hev) as H.
    unfold is_sentinel, sentinel_message in H. split; intros Hcost.
    + rewrite Hcost, Z.eqb_refl in H. apply H. reflexivity.
    + rewrite Hcost, Z.eqb_refl, orb_true_r in H.
      destruct (Z.eqb_spec NO_INFORMATION LETHAL_OBSTACLE) as [E | _];
        [congruence | apply H; reflexivity].
  - intros v Hr.
    destruct (scorePose_return_cell pose v Hr) as (cm & c & _ & -> & Hclean).
    unfold is_sentinel in Hclean. apply orb_false_elim in Hclean as [H1 H2].
    split; [apply Z.eqb_neq, H1 | apply Z.eqb_neq, H2].
Qed.

(** *** Error kinds *)

Lemma edge_cells_functional (costmap_ : @Costmap2D D) (e : Point * Point)
  (cells cells' : list (Z * Z)) :
  edge_cells costmap_ e cells -> edge_cells costmap_ e cells' -> cells = cells'.
Proof.
  intros (c0 & c1 & H0 & H1 & Hr) (c0' & c1' & H0' & H1' & Hr').
  congruence.
Qed.

Lemma consecutive_or_last (p d : @Point D) (vertices : @Footprint D) :
  In p vertices ->
  (exists q, In (p, q) (consecutive vertices)) \/ p = last vertices d.
Proof.
  induction vertices as [| a [| b rest] IH]; intros Hin; [contradiction | |].
  - destruct Hin as [-> | []]. right. reflexivity.
  - destruct Hin as [-> | Hin].
    + left. exists b. left. reflexivity.
    + destruct (IH Hin) as [(q & Hq) | Hlast].
      * left. exists q. right. exact Hq.
      * right. exact Hlast.
Qed.

Lemma boundary_edge_from (p : @Point D) (footprint : @Footprint D) :
  In p footprint -> exists q, In (p, q) (boundary_edges footprint).
Proof.
  intros Hin. destruct footprint as [| a rest]; [contradiction |].
  unfold boundary_edges.
  destruct (consecutive_or_last p a (a :: rest) Hin) as [(q & Hq) | ->].
  - exists q. apply in_or_app. left. exact Hq.
  - exists a. apply in_or_app. right. left.
    destruct rest; reflexivity.
Qed.

Lemma boundary_edges_nonempty (e : @Point D * @Point D) (footprint : @Footprint D) :
  In e (boundary_edges footprint) -> footprint <> [].
Proof. intros Hin ->. exact Hin. Qed.

Lemma scorePose_cause_throws (pose : Pose2D) (costmap_ : Costmap2D)
  (footprint : Footprint) :
  laid_down self pose costmap_ footprint ->
  Z.of_nat (List.length footprint) <= 2 ^ 32 ->
  vertex_off_grid costmap_ footprint \/
  sentinel_on_boundary LETHAL_OBSTACLE NO_INFORMATION costmap_ footprint ->
  exists msg, result (scorePose' pose) = Throw (Illegal msg).
Proof.
  intros Hlaid Hsize Hcause.
  pose proof (laid_down_costmap _ _ _ Hlaid) as Hcm.
  rewrite (scorePose_laid_down_eq _ _ _ Hlaid).
  assert (footprint <> []) as Hne.
  { destruct Hcause as [(p & Hin & _) | (e & _ & _ & Hin & _)].
    - intros ->. exact Hin.
    - apply (boundary_edges_nonempty _ _ Hin). }
  pose proof (blamed_edges LETHAL_OBSTACLE NO_INFORMATION self costmap_ Hcm footprint)
    as Hblame.
  pose proof (edges_terminates LETHAL_OBSTACLE NO_INFORMATION self costmap_ Hcm
                footprint Hne Hsize) as Hterm.
  destruct (result (edges' costmap_ footprint)) as [v | [n msg | | |] |] eqn:Hr;
    try contradiction.
  - exfalso.
    apply (edges_return _ _ _ _ Hcm) in Hr as (maxima & Hall & _).
    destruct Hcause as [(p & Hin & Hoff) | (e & cells & c & Hin & Hcells & Hc & Hs)].
    + destruct (boundary_edge_from p footprint Hin) as (q & Hq).
      destruct (Forall2_In_l _ _ _ _ Hall Hq)
        as (m & _ & cells & (c0 & c1 & H0 & _) & _).
      cbn [fst] in H0. congruence.
    + destruct (Forall2_In_l _ _ _ _ Hall Hin)
        as (m & _ & cells' & Hcells' & Hclean & _).
      rewrite <- (edge_cells_functional _ _ _ _ Hcells Hcells') in Hclean.
      pose proof (proj1 (Forall_forall _ _) Hclean c Hc). congruence.
  - destruct Hblame as [-> _]. exists msg. reflexivity.
Qed.

Lemma scorePose_boundary_iff (pose : Pose2D) (costmap_ : Costmap2D)
  (footprint : Footprint) :
  laid_down self pose costmap_ footprint ->
  Z.of_nat (List.length footprint) <= 2 ^ 32 ->
  ((exists msg, result (scorePose' pose) = Throw (Illegal msg)) <->
   vertex_off_grid costmap_ footprint \/
   sentinel_on_boundary LETHAL_OBSTACLE NO_INFORMATION costmap_ footprint).
Proof.
  intros Hlaid Hsize. split.
  - intros (msg & Hr). rewrite (scorePose_laid_down_eq _ _ _ Hlaid) in Hr.
    destruct footprint as [| p rest]; [discriminate Hr |].
    apply (edges_throw _ _ _ _ (laid_down_costmap _ _ _ Hlaid)) in Hr;
      [apply Hr | discriminate | exact Hsize].
  - apply (scorePose_cause_throws pose costmap_ footprint Hlaid Hsize).
Qed.

Lemma scorePose_returns_iff_clear (pose : Pose2D) (costmap_ : Costmap2D)
  (footprint : Footprint) :
  laid_down self pose costmap_ footprint ->
  footprint <> [] ->
  Z.of_nat (List.length footprint) <= 2 ^ 32 ->
  ((exists v, result (scorePose' pose) = Return v) <->
   ~ (vertex_off_grid costmap_ footprint \/
      sentinel_on_boundary LETHAL_OBSTACLE NO_INFORMATION costmap_ footprint)).
Proof.
  intros Hlaid Hne Hsize.
  pose proof (laid_down_costmap _ _ _ Hlaid) as Hcm. split.
  - intros (v & Hr) Hcause.
    destruct (scorePose_cause_throws pose costmap_ footprint Hlaid Hsize Hcause)
      as (msg & Hthrow).
    congruence.
  - intros Hclear. rewrite (scorePose_laid_down_eq _ _ _ Hlaid).
    pose proof (edges_terminates LETHAL_OBSTACLE NO_INFORMATION self costmap_ Hcm
                  footprint Hne Hsize) as Hterm.
    destruct (result (edges' costmap_ footprint)) as [v | e |] eqn:Hr;
      [exists v; reflexivity | | contradiction].
    exfalso. apply Hclear.
    apply (edges_throw _ _ _ _ Hcm _ _ Hne Hsize Hr).
Qed.

(** C4.  The two recoverable kinds, and when [scorePose] raises them.
    Every IllegalTrajectory it throws names the checker and has one of these
    causes: the query pose is off the grid, a footprint vertex is off the
    grid, or a cell rasterized between two vertices holds LETHAL_OBSTACLE or
    NO_INFORMATION.  Every PlannerException it throws has one of these
    causes: the costmap is unavailable, the footprint is unavailable, or the
    lookup of the robot pose failed.  Conversely each of these situations
    raises its kind when [scorePose] reaches it, in the order in which the
    function checks them: costmap, cell of the pose, footprint, robot pose,
    and then the boundary, where IllegalTrajectory is raised exactly when a
    vertex is off the grid or a cell of a boundary edge holds a sentinel (for
    a footprint whose size fits the 32-bit counter of the loop). *)
Theorem scorePose_error_kinds (pose : Pose2D) :
  (forall n msg,
      result (scorePose' pose) = Throw (IllegalTrajectoryException n msg) ->
      n = name_ self /\
      exists costmap_,
        getCostmap self = inr costmap_ /\
        (worldToMap costmap_ (pose_x pose) (pose_y pose) = None \/
         exists footprint,
           laid_down self pose costmap_ footprint /\
           (vertex_off_grid costmap_ footprint \/
            sentinel_between_vertices LETHAL_OBSTACLE NO_INFORMATION
                                      costmap_ footprint))) /\
  (forall msg,
      result (scorePose' pose) = Throw (PlannerException msg) ->
      (exists w, getCostmap self = inl w) \/
      getFootprint self = None \/
      tf_failed (tf_transform self)) /\
  (forall w,
      getCostmap self = inl w ->
      result (scorePose' pose) = Throw (PlannerException w)) /\
  (forall costmap_,
      getCostmap self = inr costmap_ ->
      (worldToMap costmap_ (pose_x pose) (pose_y pose) = None ->
       result (scorePose' pose) = Throw (Illegal "Trajectory Goes Off Grid.")) /\
      (worldToMap costmap_ (pose_x pose) (pose_y pose) <> None ->
       getFootprint self = None ->
       result (scorePose' pose) =
       Throw (PlannerException "Footprint not available.")) /\
      (worldToMap costmap_ (pose_x pose) (pose_y pose) <> None ->
       getFootprint self <> None ->
       tf_failed (tf_transform self) ->
       result (scorePose' pose) =
       Throw (PlannerException "Robot pose unavailable.")) /\
      (forall footprint,
          laid_down self pose costmap_ footprint ->
          Z.of_nat (List.length footprint) <= 2 ^ 32 ->
          ((exists msg, result (scorePose' pose) = Throw (Illegal msg)) <->
           vertex_off_grid costmap_ footprint \/
           sentinel_on_boundary LETHAL_OBSTACLE NO_INFORMATION costmap_ footprint))).
Proof.
  pose proof (scorePose_outcome pose) as Hcases.
  split; [| split; [| split]].
  - intros n msg Hr.
    destruct Hcases
      as [(w & _ & E) | (cm & Hcm & [(Hoff & E) | [(_ & _ & E) | [(_ & _ & _ & E & _) | (fp & Hlaid & E)]]])];
      rewrite E in Hr; try discriminate Hr.
    + injection Hr as <- _. split; [reflexivity |].
      exists cm. split; [exact Hcm | left; exact Hoff].
    + pose proof (blamed_edges LETHAL_OBSTACLE NO_INFORMATION self cm Hcm fp)
        as Hblame.
      rewrite Hr in Hblame. destruct Hblame as [-> Hcause].
      split; [reflexivity |]. exists cm. split; [exact Hcm | right].
      exists fp. split; [exact Hlaid | exact Hcause].
  - intros msg Hr.
    destruct Hcases
      as [(w & Hcm & E) | (cm & Hcm & [(Hoff & E) | [(_ & Hfp & E) | [(_ & _ & Htf & E & _) | (fp & Hlaid & E)]]])];
      rewrite ?E in Hr; try discriminate Hr.
    + left. exists w. exact Hcm.
    + right. left. exact Hfp.
    + right. right. exact Htf.
    + pose proof (blamed_edges LETHAL_OBSTACLE NO_INFORMATION self cm Hcm fp)
        as Hblame.
      rewrite Hr in Hblame. contradiction.
  - intros w Hw.
    destruct Hcases as [(w' & Hcm & E) | (cm & Hcm & _)]; [| congruence].
    rewrite E. cbn. congruence.
  - intros costmap_ Hcm0.
    destruct Hcases as [(w' & Hcm & _) | (cm & Hcm & Hcases)]; [congruence |].
    assert (cm = costmap_) as -> by congruence.
    split; [| split; [| split]].
    + intros Hoff.
      destruct Hcases
        as [(_ & E) | [(Hon & _) | [(Hon & _) | (fp & (? & ? & ? & ? & _ & Hon & _) & _)]]];
        [rewrite E; reflexivity | contradiction ..].
    + intros Hon Hfp.
      destruct Hcases
        as [(Hoff & _) | [(_ & _ & E) | [(_ & Hfp' & _) | (fp & (? & ? & ? & ? & _ & _ & Hfp' & _) & _)]]];
        [contradiction | rewrite E; reflexivity | contradiction | congruence].
    + intros Hon Hfp Htf.
      destruct Hcases
        as [(Hoff & _) | [(_ & Hfp' & _) | [(_ & _ & _ & E & _) | (fp & (? & ? & ? & ? & _ & _ & _ & Htf' & _) & _)]]];
        [contradiction | contradiction | exact E |].
      rewrite Htf' in Htf. contradiction.
    + intros fp Hlaid Hsize.
      apply (scorePose_boundary_iff pose costmap_ fp Hlaid Hsize).
Qed.

(** X1.  [scorePose] does return: once every collaborator has answered and
    the pose is on the grid, a footprint with at least one vertex (and a
    size that fits the loop counter) is scored exactly when no vertex is off
    the grid and no cell of a boundary edge holds a sentinel. *)
Theorem scorePose_returns_when_clear (pose : Pose2D) (costmap_ : Costmap2D)
  (footprint : Footprint) :
  laid_down self pose costmap_ footprint ->
  footprint <> [] ->
  Z.of_nat (List.length footprint) <= 2 ^ 32 ->
  ((exists v, result (scorePose' pose) = Return v) <->
   ~ (vertex_off_grid costmap_ footprint \/
      sentinel_on_boundary LETHAL_OBSTACLE NO_INFORMATION costmap_ footprint)).
Proof. exact (scorePose_returns_iff_clear pose costmap_ footprint). Qed.

End Claims.

(** ** Concrete runs *)

(** In the scene every collaborator answers, and poses inside the grid are
    laid down. *)
Lemma scene_laid_down (cost : Z -> Z -> Z) (footprint : @Footprint Z) :
  laid_down (Scene.checker cost (Some footprint)) (Scene.pose 5 5 0)
            (Scene.grid cost)
            (projected footprint 0 0 0 (Scene.pose 5 5 0)).
Proof.
  exists footprint, 0, 0, 0.
  split; [reflexivity |]. split; [discriminate |]. repeat split.
Qed.

(** The square around (5, 5) on graded costs: the worst boundary cell has
    cost 60. *)
Lemma scorePose_is_boundary_maximum_witness :
  exists costmap_ footprint maxima,
    laid_down (Scene.checker Scene.slope (Some Scene.square)) (Scene.pose 5 5 0)
              costmap_ footprint /\
    Forall2 (edge_scored Scene.LETHAL_OBSTACLE Scene.NO_INFORMATION costmap_)
            (boundary_edges footprint) maxima /\
    is_maximum 60 maxima.
Proof.
  apply (scorePose_is_boundary_maximum
           Scene.LETHAL_OBSTACLE Scene.NO_INFORMATION
           (Scene.checker Scene.slope (Some Scene.square)) (Scene.pose 5 5 0) 60).
  vm_compute. reflexivity.
Defined.

(** A lethal cell on the right side of the square. *)
Lemma sentinel_lookup_aborts_witness :
  result (Scene.score (Scene.checker (Scene.one_cell 6 5 254) (Some Scene.square))
                      (Scene.pose 5 5 0)) =
  Throw (IllegalTrajectoryException "collision_checker" "Trajectory Hits Obstacle.") /\
  exists x y,
    [Log DEBUG "Map Cell: [%d, %d]" [ArgInt 6; ArgInt 5]] =
    [Log DEBUG "Map Cell: [%d, %d]" [ArgInt x; ArgInt y]].
Proof.
  refine (proj1 (proj1 (sentinel_lookup_aborts
                          Scene.LETHAL_OBSTACLE Scene.NO_INFORMATION
                          (Scene.checker (Scene.one_cell 6 5 254) (Some Scene.square))
                          (Scene.pose 5 5 0)
                          (Scene.grid (Scene.one_cell 6 5 254)) _ _)
                       [GetCost 4 4; GetCost 5 4; GetCost 6 4; GetCost 6 4] 6 5
                       [Log DEBUG "Map Cell: [%d, %d]" [ArgInt 6; ArgInt 5]] _) _).
  - unfold Scene.LETHAL_OBSTACLE, Scene.NO_INFORMATION. lia.
  - reflexivity.
  - vm_compute. reflexivity.
  - vm_compute. reflexivity.
Defined.

(** The square around (5, 5) in free space. *)
Lemma scorePose_nonnegative_witness :
  0 <= 0 < 256 /\
  (0 <? 0) = false /\
  result (Scene.collision_free (Scene.checker Scene.free_space (Some Scene.square))
                               (Scene.pose 5 5 0)) = Return true.
Proof.
  apply (scorePose_nonnegative
           Scene.LETHAL_OBSTACLE Scene.NO_INFORMATION
           (Scene.checker Scene.free_space (Some Scene.square)) (Scene.pose 5 5 0) 0).
  vm_compute. reflexivity.
Defined.

(** The empty footprint. *)
Lemma footprint_below_two_vertices_witness :
  Scene.score (Scene.checker Scene.free_space (Some [])) (Scene.pose 5 5 0) =
    ([], Throw OutOfRange) /\
  Scene.collision_free (Scene.checker Scene.free_space (Some [])) (Scene.pose 5 5 0) =
    ([], Throw OutOfRange).
Proof.
  exact (proj1 (footprint_below_two_vertices
                  Scene.LETHAL_OBSTACLE Scene.NO_INFORMATION
                  (Scene.checker Scene.free_space (Some [])) (Scene.pose 5 5 0)
                  (Scene.grid Scene.free_space) []
                  (scene_laid_down Scene.free_space []))
               eq_refl).
Defined.

(** The square around (5, 5) in free space. *)
Lemma scorePose_returns_when_clear_witness :
  (exists v, result (Scene.score (Scene.checker Scene.free_space (Some Scene.square))
                                 (Scene.pose 5 5 0)) = Return v) <->
  ~ (vertex_off_grid (Scene.grid Scene.free_space)
                     (projected Scene.square 0 0 0 (Scene.pose 5 5 0)) \/
     sentinel_on_boundary Scene.LETHAL_OBSTACLE Scene.NO_INFORMATION
                          (Scene.grid Scene.free_space)
                          (projected Scene.square 0 0 0 (Scene.pose 5 5 0))).
Proof.
  apply (scorePose_returns_when_clear
           Scene.LETHAL_OBSTACLE Scene.NO_INFORMATION
           (Scene.checker Scene.free_space (Some Scene.square)) (Scene.pose 5 5 0)
           (Scene.grid Scene.free_space)
           (projected Scene.square 0 0 0 (Scene.pose 5 5 0))
           (scene_laid_down Scene.free_space Scene.square)).
  - discriminate.
  - vm_compute. discriminate.
Defined.

(** * Further properties of the checker *)

(** ** Cells of a line stay between its endpoints *)

Lemma minor_offset_le (major minor k : Z) :
  0 <= minor <= major -> 0 <= k <= major ->
  0 <= minor_offset major minor k <= minor.
Proof.
  intros Hm Hk. destruct (Z.eq_dec major 0) as [-> | Hne].
  - unfold minor_offset. rewrite Z.div_0_r. lia.
  - split; [apply minor_offset_nonneg; lia |].
    rewrite <- (minor_offset_end major minor Hm) at 2.
    unfold minor_offset. apply Z.div_le_mono; [lia | nia].
Qed.

Lemma dominant_cells_in_box (a0 b0 a1 b1 : Z) (c : Z * Z) :
  Z.abs (b1 - b0) <= Z.abs (a1 - a0) ->
  In c (dominant_cells a0 b0 a1 b1) ->
  Z.min a0 a1 <= fst c <= Z.max a0 a1 /\ Z.min b0 b1 <= snd c <= Z.max b0 b1.
Proof.
  intros Hdom Hin. unfold dominant_cells in Hin. cbv zeta in Hin.
  apply in_map_iff in Hin as (j & <- & Hj). apply in_seq in Hj. cbn [fst snd].
  pose proof (minor_offset_le (Z.abs (a1 - a0)) (Z.abs (b1 - b0)) (Z.of_nat j)
                ltac:(lia) ltac:(lia)) as Hoff.
  unfold direction.
  destruct (Z.leb_spec a0 a1), (Z.leb_spec b0 b1); nia.
Qed.

Lemma line_cells_in_box (x0 y0 x1 y1 : Z) (c : Z * Z) :
  In c (line_cells x0 y0 x1 y1) ->
  Z.min x0 x1 <= fst c <= Z.max x0 x1 /\ Z.min y0 y1 <= snd c <= Z.max y0 y1.
Proof.
  destruct (Z_le_gt_dec (Z.abs (y1 - y0)) (Z.abs (x1 - x0))) as [H | H].
  - rewrite line_cells_x_dominant by exact H. apply dominant_cells_in_box, H.
  - rewrite line_cells_y_dominant by lia. intros Hin.
    apply in_map_iff in Hin as (c' & <- & Hin).
    apply dominant_cells_in_box in Hin; [| lia]. cbn [swap_xy fst snd]. lia.
Qed.

Lemma to_int_small (u : Z) : 0 <= u < 2 ^ 31 -> to_int u = u.
Proof.
  intros H. unfold to_int. rewrite Z.mod_small; lia.
Qed.

Lemma events_bind_forall {A B} (P : Event -> Prop) (m : M A) (k : A -> M B) :
  Forall P (events m) ->
  (forall a, result m = Return a -> Forall P (events (k a))) ->
  Forall P (events (bind m k)).
Proof.
  intros Hm Hk. rewrite events_bind. apply Forall_app. split; [exact Hm |].
  destruct (result m) as [a | e |]; [apply Hk; reflexivity | constructor | constructor].
Qed.

(** ** Every lookup is inside the map *)

Section MapBounds.

Context {D : Type} {ops : DoubleOps D}.
Variables LETHAL_OBSTACLE NO_INFORMATION : Z.
Variable self : @Collaborators D.
Variable costmap_ : @Costmap2D D.
Variables size_x size_y : Z.

Local Abbreviation inside := (fun c : Z * Z => 0 <= fst c < size_x /\ 0 <= snd c < size_y).
Local Abbreviation within := (Forall (inside_map size_x size_y)).

Lemma within_cells (cells : list (Z * Z)) (line_cost : Z) :
  getCostmap self = inr costmap_ ->
  size_x <= 2 ^ 31 -> size_y <= 2 ^ 31 ->
  Forall inside cells ->
  within (events (cells_cost LETHAL_OBSTACLE NO_INFORMATION self cells line_cost)).
Proof.
  intros Hcostmap Hx Hy Hall. revert line_cost.
  induction Hall as [| c rest Hc _ IH]; intros line_cost; [constructor |].
  cbn [cells_cost]. apply events_bind_forall; [| intros pc _; apply IH].
  rewrite (pointCost_eq _ _ _ _ Hcostmap).
  assert (Hin : inside_map size_x size_y (GetCost (wrap_unsigned (fst c)) (wrap_unsigned (snd c)))).
  { cbn beta in Hc. cbn [inside_map]. unfold wrap_unsigned. rewrite !Z.mod_small; lia. }
  destruct (is_sentinel _ _ _); cbn [events fst]; repeat constructor; apply Hin.
Qed.

Lemma within_lineCost (c0 c1 : Z * Z) :
  getCostmap self = inr costmap_ ->
  size_x <= 2 ^ 31 -> size_y <= 2 ^ 31 ->
  inside c0 -> inside c1 ->
  within (events (lineCost LETHAL_OBSTACLE NO_INFORMATION self
                    (to_int (fst c0)) (to_int (fst c1))
                    (to_int (snd c0)) (to_int (snd c1)))).
Proof.
  intros Hcostmap Hx Hy H0 H1. rewrite lineCost_cells.
  apply within_cells; try assumption.
  apply Forall_forall. intros c Hin. apply line_cells_in_box in Hin.
  cbn beta in H0, H1. rewrite !to_int_small in Hin by lia. lia.
Qed.

Lemma within_vertexToMap (p : Point) (msg : string) :
  within (events (vertexToMap self costmap_ p msg)).
Proof.
  unfold vertexToMap.
  destruct (worldToMap costmap_ (point_x p) (point_y p)); repeat constructor.
Qed.

Lemma within_at_index (footprint : @Footprint D) (i : Z) :
  within (events (at_index footprint i)).
Proof. unfold at_index. destruct (nth_error footprint (Z.to_nat i)); constructor. Qed.

Lemma within_loop (footprint : @Footprint D) (fuel : nat) (i footprint_cost : Z) :
  getCostmap self = inr costmap_ ->
  size_x <= 2 ^ 31 -> size_y <= 2 ^ 31 ->
  bounded_map costmap_ size_x size_y ->
  within (events (scorePose_loop LETHAL_OBSTACLE NO_INFORMATION self costmap_
                    footprint fuel i footprint_cost)).
Proof.
  intros Hcostmap Hx Hy Hbounded. revert i footprint_cost.
  induction fuel as [| fuel IH]; intros i footprint_cost; cbn [scorePose_loop];
    destruct (i <? size_minus_one (Z.of_nat (List.length footprint)));
    try constructor.
  apply events_bind_forall; [apply within_at_index | intros p0 _].
  apply events_bind_forall; [apply within_vertexToMap | intros c0 H0].
  apply events_bind_forall; [apply within_at_index | intros p1 _].
  apply events_bind_forall; [apply within_vertexToMap | intros c1 H1].
  apply vertexToMap_return, Hbounded in H0, H1.
  apply events_bind_forall; [apply within_lineCost; assumption | intros v _; apply IH].
Qed.

Lemma within_edges (footprint : @Footprint D) :
  getCostmap self = inr costmap_ ->
  size_x <= 2 ^ 31 -> size_y <= 2 ^ 31 ->
  bounded_map costmap_ size_x size_y ->
  within (events (scorePose_edges LETHAL_OBSTACLE NO_INFORMATION self costmap_
                    footprint)).
Proof.
  intros Hcostmap Hx Hy Hbounded. unfold scorePose_edges.
  apply events_bind_forall; [apply within_loop; assumption | intros fc _].
  apply events_bind_forall; [destruct footprint; constructor | intros p0 _].
  apply events_bind_forall; [apply within_vertexToMap | intros c0 H0].
  apply events_bind_forall; [destruct footprint; constructor | intros p1 _].
  apply events_bind_forall; [apply within_vertexToMap | intros c1 H1].
  apply vertexToMap_return, Hbounded in H0, H1.
  apply events_bind_forall; [apply within_lineCost; assumption | intros v _; constructor].
Qed.

(** X2.  On a costmap of at most 2^31 by 2^31 cells whose [worldToMap]
    yields cells of the map only, every [getCost] that [scorePose], and so
    [isCollisionFree], performs reads a cell of the map, whatever the
    outcome: the conversions of the vertex cells to [int] and of the
    rasterized cells back to [unsigned int] lose nothing, and the cells
    that the line iterator (as modelled above) yields stay between the two
    vertex cells. *)
Theorem scorePose_reads_inside_map (pose : Pose2D) :
  getCostmap self = inr costmap_ ->
  size_x <= 2 ^ 31 -> size_y <= 2 ^ 31 ->
  bounded_map costmap_ size_x size_y ->
  Forall (inside_map size_x size_y)
         (events (scorePose LETHAL_OBSTACLE NO_INFORMATION self pose)) /\
  Forall (inside_map size_x size_y)
         (events (isCollisionFree LETHAL_OBSTACLE NO_INFORMATION self pose)).
Proof.
  intros Hcostmap Hx Hy Hbounded.
  assert (within (events (scorePose LETHAL_OBSTACLE NO_INFORMATION self pose)))
    as Hscore; [| split; [exact Hscore |]].
  2: { rewrite isCollisionFree_eq.
       destruct (scorePose LETHAL_OBSTACLE NO_INFORMATION self pose)
         as [t [score | [n d | d | w |] |]]; cbn [events fst] in *;
         try exact Hscore;
         (apply Forall_app; split; [exact Hscore | repeat constructor]). }
  destruct (scorePose_outcome LETHAL_OBSTACLE NO_INFORMATION self pose)
    as [(w & _ & E) | (cm & Hcm & [(_ & E) | [(_ & _ & E) | [(_ & _ & _ & _ & fmt & w & E) | (fp & _ & E)]]])];
    rewrite E; try (repeat constructor).
  assert (cm = costmap_) as -> by congruence.
  apply within_edges; assumption.
Qed.

End MapBounds.

(** ** The score and the cells of the boundary *)

Section BoundaryFacts.

Context {D : Type} {ops : DoubleOps D}.
Variables LETHAL_OBSTACLE NO_INFORMATION : Z.
Variable self : @Collaborators D.
Variable costmap_ : @Costmap2D D.

Local Abbreviation sentinel := (is_sentinel LETHAL_OBSTACLE NO_INFORMATION).
Local Abbreviation cost := (cost_at costmap_).
Local Abbreviation scored :=
  (Forall2 (edge_scored LETHAL_OBSTACLE NO_INFORMATION costmap_)).

(** The maximum of the edges' maxima is the maximum over the cells of the
    boundary. *)
Lemma scored_boundary_cells (footprint : @Footprint D) (maxima : list Z) (v : Z) :
  scored (boundary_edges footprint) maxima ->
  is_maximum v maxima ->
  (forall c, boundary_cell costmap_ footprint c ->
             sentinel (cost c) = false /\ cost c <= v) /\
  (exists c, boundary_cell costmap_ footprint c /\ cost c = v).
Proof.
  intros Hall [Hin Hle]. split.
  - intros c (e & cells & He & Hcells & Hc).
    destruct (Forall2_In_l _ _ _ _ Hall He)
      as (m & Hm & cells' & Hcells' & Hclean & _ & Hmax).
    rewrite <- (edge_cells_functional _ _ _ _ Hcells Hcells') in Hclean, Hmax.
    split; [apply (proj1 (Forall_forall _ _) Hclean c Hc) |].
    apply Z.le_trans with m.
    + apply (proj1 (Forall_forall _ _) Hmax (cost c)). apply in_map, Hc.
    + apply (proj1 (Forall_forall _ _) Hle m Hm).
  - destruct (Forall2_In_r _ _ _ _ Hall Hin)
      as (e & He & cells & Hcells & _ & Hv & _).
    apply in_map_iff in Hv as (c & Hv & Hc).
    exists c. split; [exists e, cells; repeat split; assumption | exact Hv].
Qed.

Lemma scored_on_grid (footprint : @Footprint D) (maxima : list Z) :
  scored (boundary_edges footprint) maxima ->
  ~ vertex_off_grid costmap_ footprint.
Proof.
  intros Hall (p & Hp & Hoff).
  destruct (boundary_edge_from p footprint Hp) as (q & He).
  destruct (Forall2_In_l _ _ _ _ Hall He)
    as (m & _ & cells & (c0 & c1 & H0 & _) & _).
  cbn [fst] in H0. congruence.
Qed.

Lemma scored_no_sentinel (footprint : @Footprint D) (maxima : list Z) :
  scored (boundary_edges footprint) maxima ->
  ~ sentinel_on_boundary LETHAL_OBSTACLE NO_INFORMATION costmap_ footprint.
Proof.
  intros Hall (e & cells & c & He & Hcells & Hc & Hs).
  destruct (Forall2_In_l _ _ _ _ Hall He) as (m & _ & cells' & Hcells' & Hclean & _).
  rewrite <- (edge_cells_functional _ _ _ _ Hcells Hcells') in Hclean.
  pose proof (proj1 (Forall_forall _ _) Hclean c Hc). congruence.
Qed.

(** The second half of [scorePose] returns when the boundary is clear. *)
Lemma edges_clear_returns (footprint : @Footprint D) :
  getCostmap self = inr costmap_ ->
  footprint <> [] ->
  Z.of_nat (List.length footprint) <= 2 ^ 32 ->
  ~ vertex_off_grid costmap_ footprint ->
  ~ sentinel_on_boundary LETHAL_OBSTACLE NO_INFORMATION costmap_ footprint ->
  exists v, result (scorePose_edges LETHAL_OBSTACLE NO_INFORMATION self costmap_
                      footprint) = Return v.
Proof.
  intros Hcm Hne Hsize Hgrid Hclean.
  pose proof (edges_terminates LETHAL_OBSTACLE NO_INFORMATION self costmap_ Hcm
                footprint Hne Hsize) as Hterm.
  destruct (result (scorePose_edges _ _ self costmap_ footprint)) as [v | e |] eqn:Hr;
    [exists v; reflexivity | | contradiction].
  destruct (edges_throw _ _ _ _ Hcm _ _ Hne Hsize Hr) as [_ [H | H]]; contradiction.
Qed.

Lemma laid_down_functional (pose : Pose2D) (cm cm' : @Costmap2D D)
  (fp fp' : @Footprint D) :
  laid_down self pose cm fp -> laid_down self pose cm' fp' -> cm = cm' /\ fp = fp'.
Proof.
  intros (provided & rx & ry & ryaw & Hcm & _ & Hfp & Htf & ->)
         (provided' & rx' & ry' & ryaw' & Hcm' & _ & Hfp' & Htf' & ->).
  rewrite Hcm in Hcm'. rewrite Hfp in Hfp'. rewrite Htf in Htf'.
  injection Hcm' as <-. injection Hfp' as <-. injection Htf' as <- <- <-.
  split; reflexivity.
Qed.

End BoundaryFacts.

(** ** Only the cells of the boundary matter *)

Section Frame.

Context {D : Type} {ops : DoubleOps D}.
Variables LETHAL_OBSTACLE NO_INFORMATION : Z.
Variable self : @Collaborators D.
Variable costmap_ : @Costmap2D D.
Variable cost' : Z -> Z -> Z.
Hypothesis Hcostmap : getCostmap self = inr costmap_.

Local Abbreviation self' := (with_costs self costmap_ cost').
Local Abbreviation costmap' := (recosted costmap_ cost').

Lemma cells_cost_frame (cells : list (Z * Z)) (line_cost : Z) :
  (forall c, In c cells -> cost_at costmap' c = cost_at costmap_ c) ->
  cells_cost LETHAL_OBSTACLE NO_INFORMATION self' cells line_cost =
  cells_cost LETHAL_OBSTACLE NO_INFORMATION self cells line_cost.
Proof.
  revert line_cost. induction cells as [| c rest IH]; intros line_cost Hagree;
    [reflexivity |].
  cbn [cells_cost].
  rewrite (pointCost_eq _ _ self' costmap' eq_refl), (pointCost_eq _ _ _ _ Hcostmap).
  rewrite <- surjective_pairing, (Hagree c (or_introl eq_refl)).
  apply bind_ext. intros pc _. apply IH. intros c' Hc'. apply Hagree. right. exact Hc'.
Qed.

Lemma edge_cost_frame (p0 p1 : Point) (msg0 msg1 : string) :
  (forall cells c, edge_cells costmap_ (p0, p1) cells -> In c cells ->
                   cost_at costmap' c = cost_at costmap_ c) ->
  edge_cost LETHAL_OBSTACLE NO_INFORMATION self' costmap' p0 p1 msg0 msg1 =
  edge_cost LETHAL_OBSTACLE NO_INFORMATION self costmap_ p0 p1 msg0 msg1.
Proof.
  intros Hagree. unfold edge_cost.
  change (vertexToMap self' costmap') with (vertexToMap self costmap_).
  apply bind_ext. intros c0 H0. apply bind_ext. intros c1 H1.
  apply vertexToMap_return in H0, H1.
  rewrite !lineCost_cells. apply cells_cost_frame.
  intros c Hc.
  apply (Hagree (line_cells (to_int (fst c0)) (to_int (snd c0))
                            (to_int (fst c1)) (to_int (snd c1))));
    [| exact Hc].
  exists c0, c1. repeat split; try assumption.
  apply rasterize_line_cells.
Qed.

Lemma edges_cost_frame (vertices : @Footprint D) (footprint_cost : Z) :
  (forall e cells c, In e (consecutive vertices) -> edge_cells costmap_ e cells ->
                     In c cells -> cost_at costmap' c = cost_at costmap_ c) ->
  edges_cost LETHAL_OBSTACLE NO_INFORMATION self' costmap' vertices footprint_cost =
  edges_cost LETHAL_OBSTACLE NO_INFORMATION self costmap_ vertices footprint_cost.
Proof.
  revert footprint_cost.
  induction vertices as [| p0 [| p1 rest] IH]; intros footprint_cost Hagree;
    try reflexivity.
  pose proof (edge_cost_frame p0 p1 "Footprint Goes Off Grid at map."
                "Footprint Goes Off Grid."
                (fun cells c => Hagree (p0, p1) cells c (or_introl eq_refl))) as Hedge.
  unfold edge_cost in Hedge.
  change (edges_cost LETHAL_OBSTACLE NO_INFORMATION self' costmap' (p0 :: p1 :: rest)
            footprint_cost)
    with (c0 <- vertexToMap self' costmap' p0 "Footprint Goes Off Grid at map." ;;
          c1 <- vertexToMap self' costmap' p1 "Footprint Goes Off Grid." ;;
          line_cost <- lineCost LETHAL_OBSTACLE NO_INFORMATION self'
                                (to_int (fst c0)) (to_int (fst c1))
                                (to_int (snd c0)) (to_int (snd c1)) ;;
          edges_cost LETHAL_OBSTACLE NO_INFORMATION self' costmap' (p1 :: rest)
                     (Z.max line_cost footprint_cost)).
  change (edges_cost LETHAL_OBSTACLE NO_INFORMATION self costmap_ (p0 :: p1 :: rest)
            footprint_cost)
    with (c0 <- vertexToMap self costmap_ p0 "Footprint Goes Off Grid at map." ;;
          c1 <- vertexToMap self costmap_ p1 "Footprint Goes Off Grid." ;;
          line_cost <- lineCost LETHAL_OBSTACLE NO_INFORMATION self
                                (to_int (fst c0)) (to_int (fst c1))
                                (to_int (snd c0)) (to_int (snd c1)) ;;
          edges_cost LETHAL_OBSTACLE NO_INFORMATION self costmap_ (p1 :: rest)
                     (Z.max line_cost footprint_cost)).
  change (vertexToMap self' costmap') with (vertexToMap self costmap_).
  apply bind_ext. intros c0 H0. apply bind_ext. intros c1 H1.
  apply vertexToMap_return in H0, H1.
  rewrite !lineCost_cells.
  rewrite cells_cost_frame.
  - apply bind_ext. intros line_cost _. apply IH.
    intros e cells c He. apply Hagree. right. exact He.
  - intros c Hc. apply (Hagree (p0, p1) (line_cells (to_int (fst c0)) (to_int (snd c0))
                                           (to_int (fst c1)) (to_int (snd c1))));
      [left; reflexivity | | exact Hc].
    exists c0, c1. repeat split; try assumption. apply rasterize_line_cells.
Qed.

Lemma edges_frame (footprint : @Footprint D) :
  Z.of_nat (List.length footprint) <= 2 ^ 32 ->
  (forall c, boundary_cell costmap_ footprint c ->
             cost_at costmap' c = cost_at costmap_ c) ->
  scorePose_edges LETHAL_OBSTACLE NO_INFORMATION self' costmap' footprint =
  scorePose_edges LETHAL_OBSTACLE NO_INFORMATION self costmap_ footprint.
Proof.
  intros Hsize Hagree. destruct footprint as [| p rest]; [reflexivity |].
  rewrite (edges_closed_form _ _ self' costmap' (p :: rest))
    by (discriminate || exact Hsize).
  rewrite (edges_closed_form _ _ self costmap_ (p :: rest))
    by (discriminate || exact Hsize).
  rewrite edges_cost_frame, edge_cost_frame; [reflexivity | |].
  - intros cells c Hcells Hc. apply Hagree.
    exists (last (p :: rest) p, p), cells.
    split; [| split; [exact Hcells | exact Hc]].
    unfold boundary_edges. apply in_or_app. right. left.
    destruct rest; reflexivity.
  - intros e cells c He Hcells Hc. apply Hagree.
    exists e, cells. split; [| split; [exact Hcells | exact Hc]].
    unfold boundary_edges. apply in_or_app. left. exact He.
Qed.

Lemma laid_down_with_costs (pose : Pose2D) (footprint : @Footprint D) :
  laid_down self pose costmap_ footprint ->
  laid_down self' pose costmap' footprint.
Proof.
  intros (provided & rx & ry & ryaw & _ & Hpose & Hfp & Htf & ->).
  exists provided, rx, ry, ryaw. repeat split; assumption.
Qed.

End Frame.

(** X3.  The score depends on the stored values of the boundary cells
    only: a costmap with the same geometry whose stored costs agree (as
    [unsigned char]) on every cell rasterized on a boundary edge gives the
    same run of [scorePose] and of [isCollisionFree], lookups, log lines
    and exception included. *)
Theorem scorePose_reads_boundary_only {D : Type} {ops : DoubleOps D}
  (LETHAL_OBSTACLE NO_INFORMATION : Z) (self : @Collaborators D)
  (costmap_ : @Costmap2D D) (cost' : Z -> Z -> Z) (pose : Pose2D)
  (footprint : @Footprint D) :
  laid_down self pose costmap_ footprint ->
  Z.of_nat (List.length footprint) <= 2 ^ 32 ->
  (forall c, boundary_cell costmap_ footprint c ->
             cost_at (recosted costmap_ cost') c = cost_at costmap_ c) ->
  scorePose LETHAL_OBSTACLE NO_INFORMATION (with_costs self costmap_ cost') pose =
    scorePose LETHAL_OBSTACLE NO_INFORMATION self pose /\
  isCollisionFree LETHAL_OBSTACLE NO_INFORMATION (with_costs self costmap_ cost') pose =
    isCollisionFree LETHAL_OBSTACLE NO_INFORMATION self pose.
Proof.
  intros Hlaid Hsize Hagree.
  pose proof (laid_down_costmap _ _ _ _ Hlaid) as Hcm.
  assert (scorePose LETHAL_OBSTACLE NO_INFORMATION (with_costs self costmap_ cost') pose =
          scorePose LETHAL_OBSTACLE NO_INFORMATION self pose) as Hscore.
  { rewrite (scorePose_laid_down_eq _ _ _ _ _ _
               (laid_down_with_costs self costmap_ cost' pose footprint Hlaid)).
    rewrite (scorePose_laid_down_eq _ _ _ _ _ _ Hlaid).
    apply edges_frame; assumption. }
  split; [exact Hscore |].
  rewrite !isCollisionFree_eq, Hscore. reflexivity.
Qed.

(** ** Scores on two costmaps, and the verdict *)

Section Verdict.

Context {D : Type} {ops : DoubleOps D}.
Variables LETHAL_OBSTACLE NO_INFORMATION : Z.
Variable self : @Collaborators D.

Local Abbreviation scorePose' := (scorePose LETHAL_OBSTACLE NO_INFORMATION self).
Local Abbreviation isCollisionFree' :=
  (isCollisionFree LETHAL_OBSTACLE NO_INFORMATION self).
Local Abbreviation clear costmap_ footprint :=
  (~ vertex_off_grid costmap_ footprint /\
   ~ sentinel_on_boundary LETHAL_OBSTACLE NO_INFORMATION costmap_ footprint).

(** A returned score, read over the cells of the boundary. *)
Lemma scorePose_return_boundary (pose : Pose2D) (v : Z) (costmap_ : Costmap2D)
  (footprint : Footprint) :
  laid_down self pose costmap_ footprint ->
  result (scorePose' pose) = Return v ->
  clear costmap_ footprint /\
  (forall c, boundary_cell costmap_ footprint c ->
             is_sentinel LETHAL_OBSTACLE NO_INFORMATION (cost_at costmap_ c) = false /\
             cost_at costmap_ c <= v) /\
  (exists c, boundary_cell costmap_ footprint c /\ cost_at costmap_ c = v).
Proof.
  intros Hlaid Hr.
  apply scorePose_return_scored in Hr as (cm & fp & maxima & Hlaid' & Hall & Hmax).
  destruct (laid_down_functional _ _ _ _ _ _ Hlaid Hlaid') as [<- <-].
  split; [split; [apply (scored_on_grid _ _ _ _ _ Hall)
                 | apply (scored_no_sentinel _ _ _ _ _ Hall)] |].
  apply (scored_boundary_cells _ _ _ _ _ _ Hall Hmax).
Qed.

Lemma laid_down_size (pose : Pose2D) (costmap_ : Costmap2D) (footprint : Footprint) :
  laid_down self pose costmap_ footprint ->
  exists provided,
    getFootprint self = Some provided /\
    List.length footprint = List.length provided.
Proof.
  intros (provided & rx & ry & ryaw & _ & _ & Hfp & _ & ->).
  exists provided. split; [exact Hfp |].
  unfold projected, transformFootprint. rewrite !length_map. reflexivity.
Qed.

Lemma scorePose_score_nonneg (pose : Pose2D) (v : Z) :
  result (scorePose' pose) = Return v -> 0 <= v.
Proof.
  intros Hr. destruct (scorePose_return_cell _ _ _ pose v Hr) as (cm & c & _ & -> & _).
  apply cost_range.
Qed.

Lemma isCollisionFree_true_iff (pose : Pose2D) :
  result (isCollisionFree' pose) = Return true <->
  exists v, result (scorePose' pose) = Return v.
Proof.
  pose proof (scorePose_score_nonneg pose) as Hpos.
  rewrite isCollisionFree_eq.
  destruct (scorePose' pose) as [t [score | [n d | d | w |] |]]; cbn in *;
    try (split; [discriminate | intros (v & [=])]).
  split; [intros _; exists score; reflexivity | intros _].
  specialize (Hpos score eq_refl).
  destruct (Z.ltb_spec score 0); [lia | reflexivity].
Qed.

Lemma isCollisionFree_answers (pose : Pose2D) (costmap_ : Costmap2D)
  (footprint : Footprint) :
  laid_down self pose costmap_ footprint ->
  footprint <> [] ->
  Z.of_nat (List.length footprint) <= 2 ^ 32 ->
  exists b, result (isCollisionFree' pose) = Return b.
Proof.
  intros Hlaid Hne Hle.
  pose proof (laid_down_costmap _ _ _ _ Hlaid) as Hcm.
  pose proof (edges_terminates LETHAL_OBSTACLE NO_INFORMATION self costmap_ Hcm
                footprint Hne Hle) as Hterm.
  pose proof (fun e => edges_throw LETHAL_OBSTACLE NO_INFORMATION self costmap_ Hcm
                         footprint e Hne Hle) as Hthrow.
  rewrite isCollisionFree_eq, (scorePose_laid_down_eq _ _ _ _ _ _ Hlaid).
  destruct (scorePose_edges _ _ self costmap_ footprint) as [t [v | e |]]; cbn in *.
  - eexists. reflexivity.
  - destruct (Hthrow e eq_refl) as [(msg & ->) _]. eexists. reflexivity.
  - contradiction.
Qed.

(** X4.  Once the costmap, the cell of the pose, the footprint and the
    robot pose have been obtained (the pose lookup has returned), and the
    footprint has at least one and at most 2^32 vertices,
    [isCollisionFree] answers: it returns true exactly when every vertex of
    the projected footprint is on the grid and no cell rasterized on a
    boundary edge holds a sentinel, and false exactly when that fails; from
    there on no exception leaves it and neither loop runs for ever. *)
Theorem isCollisionFree_verdict (pose : Pose2D) (costmap_ : Costmap2D)
  (footprint : Footprint) :
  laid_down self pose costmap_ footprint ->
  footprint <> [] ->
  Z.of_nat (List.length footprint) <= 2 ^ 32 ->
  (result (isCollisionFree' pose) = Return true <-> clear costmap_ footprint) /\
  (result (isCollisionFree' pose) = Return false <-> ~ clear costmap_ footprint).
Proof.
  intros Hlaid Hne Hle.
  assert (result (isCollisionFree' pose) = Return true <-> clear costmap_ footprint)
    as Htrue.
  { rewrite isCollisionFree_true_iff.
    rewrite (scorePose_returns_iff_clear _ _ _ pose costmap_ footprint Hlaid Hne Hle).
    tauto. }
  split; [exact Htrue |].
  destruct (isCollisionFree_answers pose costmap_ footprint Hlaid Hne Hle)
    as ([|] & Hb); rewrite Hb.
  - split; [discriminate | intros Hno; exfalso; apply Hno, Htrue, Hb].
  - split; [intros _ Hyes; apply Htrue in Hyes; congruence | reflexivity].
Qed.

(** X5.  Raising stored costs never lowers a score: on two costmaps with
    the same geometry, the second holding on every boundary cell a cost at
    least as large as the first, a score returned on the second is at least
    the score returned on the first. *)
Theorem scorePose_monotone_in_costs (pose : Pose2D) (costmap_ : Costmap2D)
  (footprint : Footprint) (cost' : Z -> Z -> Z) (v v' : Z) :
  laid_down self pose costmap_ footprint ->
  (forall c, boundary_cell costmap_ footprint c ->
             cost_at costmap_ c <= cost_at (recosted costmap_ cost') c) ->
  result (scorePose' pose) = Return v ->
  result (scorePose LETHAL_OBSTACLE NO_INFORMATION
            (with_costs self costmap_ cost') pose) = Return v' ->
  v <= v'.
Proof.
  intros Hlaid Hle Hr Hr'.
  destruct (scorePose_return_boundary pose v costmap_ footprint Hlaid Hr)
    as (_ & _ & c & Hc & <-).
  apply Z.le_trans with (cost_at (recosted costmap_ cost') c); [apply Hle, Hc |].
  pose proof (laid_down_with_costs self costmap_ cost' pose footprint Hlaid) as Hlaid'.
  apply scorePose_return_scored in Hr' as (cm & fp & maxima & Hlaid'' & Hall & Hmax).
  destruct (laid_down_functional _ _ _ _ _ _ Hlaid' Hlaid'') as [<- <-].
  apply (proj1 (scored_boundary_cells _ _ _ _ _ _ Hall Hmax) c). exact Hc.
Qed.

End Verdict.

(** ** The first vertex of the footprint *)

Lemma consecutive_snoc {A} (l : list A) (d p : A) :
  l <> [] -> consecutive (l ++ [p]) = consecutive l ++ [(last l d, p)].
Proof.
  induction l as [| a [| b r] IH]; intros Hne; [contradiction | reflexivity |].
  change (consecutive ((a :: b :: r) ++ [p]))
    with ((a, b) :: consecutive ((b :: r) ++ [p])).
  rewrite IH by discriminate. reflexivity.
Qed.

Lemma boundary_edges_rotate_one {D : Type} (p : @Point D) (rest : @Footprint D)
  (e : @Point D * @Point D) :
  In e (boundary_edges (p :: rest)) <-> In e (boundary_edges (rest ++ [p])).
Proof.
  destruct rest as [| q r]; [reflexivity |].
  change (boundary_edges (p :: q :: r))
    with (((p, q) :: consecutive (q :: r)) ++ [(last (q :: r) p, p)]).
  change (boundary_edges ((q :: r) ++ [p]))
    with (consecutive ((q :: r) ++ [p]) ++ [(last (r ++ [p]) q, q)]).
  rewrite (consecutive_snoc (q :: r) p p) by discriminate.
  rewrite last_last, !in_app_iff. cbn [In]. tauto.
Qed.

Lemma boundary_edges_rotate {D : Type} (l1 l2 : @Footprint D)
  (e : @Point D * @Point D) :
  In e (boundary_edges (l1 ++ l2)) <-> In e (boundary_edges (l2 ++ l1)).
Proof.
  revert l2. induction l1 as [| p l1 IH]; intros l2.
  - rewrite app_nil_r. reflexivity.
  - change ((p :: l1) ++ l2) with (p :: (l1 ++ l2)).
    rewrite boundary_edges_rotate_one, <- app_assoc, IH, <- app_assoc.
    reflexivity.
Qed.

Section FirstVertex.

Context {D : Type} {ops : DoubleOps D}.
Variables LETHAL_OBSTACLE NO_INFORMATION : Z.
Variable costmap_ : @Costmap2D D.

Lemma boundary_cell_edges (fp fp' : @Footprint D) (c : Z * Z) :
  (forall e, In e (boundary_edges fp) -> In e (boundary_edges fp')) ->
  boundary_cell costmap_ fp c -> boundary_cell costmap_ fp' c.
Proof.
  intros Hsub (e & cells & He & Hcells & Hc).
  exists e, cells. split; [apply Hsub, He | split; assumption].
Qed.

(** Two polygons with the same boundary edges get the same score, whoever
    scores them. *)
Lemma edges_same_boundary (self self' : @Collaborators D) (fp fp' : @Footprint D)
  (v : Z) :
  getCostmap self = inr costmap_ ->
  getCostmap self' = inr costmap_ ->
  (forall e, In e (boundary_edges fp) <-> In e (boundary_edges fp')) ->
  (forall p, In p fp' -> In p fp) ->
  fp' <> [] ->
  Z.of_nat (List.length fp') <= 2 ^ 32 ->
  result (scorePose_edges LETHAL_OBSTACLE NO_INFORMATION self costmap_ fp) = Return v ->
  result (scorePose_edges LETHAL_OBSTACLE NO_INFORMATION self' costmap_ fp') = Return v.
Proof.
  intros Hcm Hcm' Hedges Hvertices Hne Hsize Hr.
  apply (edges_return _ _ _ _ Hcm) in Hr as (maxima & Hall & Hmax).
  destruct (scored_boundary_cells _ _ _ _ _ _ Hall Hmax) as (Hle & c & Hc & Hv).
  destruct (edges_clear_returns LETHAL_OBSTACLE NO_INFORMATION self' costmap_ fp'
              Hcm' Hne Hsize) as (v' & Hr').
  - intros (p & Hp & Hoff).
    apply (scored_on_grid _ _ _ _ _ Hall). exists p. split; [apply Hvertices, Hp | exact Hoff].
  - intros (e & cells & c' & He & Hcells & Hc' & Hs).
    apply (scored_no_sentinel _ _ _ _ _ Hall).
    exists e, cells, c'. repeat split; try assumption. apply Hedges, He.
  - rewrite Hr'. f_equal.
    apply (edges_return _ _ _ _ Hcm') in Hr' as (maxima' & Hall' & Hmax').
    destruct (scored_boundary_cells _ _ _ _ _ _ Hall' Hmax') as (Hle' & c' & Hc' & Hv').
    apply Z.le_antisymm.
    + rewrite <- Hv'. apply Hle. revert Hc'. apply boundary_cell_edges.
      intros e. apply Hedges.
    + rewrite <- Hv. apply Hle'. revert Hc. apply boundary_cell_edges.
      intros e. apply Hedges.
Qed.

(** X6.  The score does not depend on the vertex at which the footprint
    starts: two checkers on the same costmap whose laid-down footprints are
    the same cycle of vertices, started at different vertices, return the
    same scores.  The closing edge from the last vertex to the first makes
    the boundary the same set of edges. *)
Theorem scorePose_any_first_vertex (self self' : @Collaborators D) (pose : Pose2D)
  (l1 l2 : @Footprint D) (v : Z) :
  laid_down self pose costmap_ (l1 ++ l2) ->
  laid_down self' pose costmap_ (l2 ++ l1) ->
  (result (scorePose LETHAL_OBSTACLE NO_INFORMATION self pose) = Return v <->
   result (scorePose LETHAL_OBSTACLE NO_INFORMATION self' pose) = Return v).
Proof.
  intros Hlaid Hlaid'.
  pose proof (laid_down_costmap _ _ _ _ Hlaid) as Hcm.
  pose proof (laid_down_costmap _ _ _ _ Hlaid') as Hcm'.
  rewrite (scorePose_laid_down_eq _ _ _ _ _ _ Hlaid).
  rewrite (scorePose_laid_down_eq _ _ _ _ _ _ Hlaid').
  assert (List.length (l2 ++ l1) = List.length (l1 ++ l2)) as Hlen
    by (rewrite !length_app; lia).
  split; intros Hr; destruct (edges_return_size _ _ _ _ _ _ Hr) as [Hne Hsize];
    revert Hr; apply edges_same_boundary; try assumption.
  - intros e. apply boundary_edges_rotate.
  - intros p Hp. apply in_app_iff. apply in_app_iff in Hp. tauto.
  - intros H. apply Hne. apply app_eq_nil in H as [-> ->]. reflexivity.
  - rewrite Hlen. exact Hsize.
  - intros e. apply boundary_edges_rotate.
  - intros p Hp. apply in_app_iff. apply in_app_iff in Hp. tauto.
  - intros H. apply Hne. apply app_eq_nil in H as [-> ->]. reflexivity.
  - rewrite <- Hlen. exact Hsize.
Qed.

End FirstVertex.

(** ** The lookups of a run *)

Lemma looks_up_weaken (Q Q' : Z * Z -> Prop) (t : list Event) :
  (forall c, Q c -> Q' c) -> Forall (looks_up Q) t -> Forall (looks_up Q') t.
Proof.
  intros Hsub. apply Forall_impl. intros [mx my | lvl fmt args]; [| trivial].
  intros (c & Hc & E). exists c. split; [apply Hsub, Hc | exact E].
Qed.

Section Lookups.

Context {D : Type} {ops : DoubleOps D}.
Variables LETHAL_OBSTACLE NO_INFORMATION : Z.
Variable self : @Collaborators D.
Variable costmap_ : @Costmap2D D.
Hypothesis Hcostmap : getCostmap self = inr costmap_.

Local Abbreviation cells_cost' := (cells_cost LETHAL_OBSTACLE NO_INFORMATION self).
Local Abbreviation edge_cost' :=
  (edge_cost LETHAL_OBSTACLE NO_INFORMATION self costmap_).
Local Abbreviation edges_cost' :=
  (edges_cost LETHAL_OBSTACLE NO_INFORMATION self costmap_).
Local Abbreviation edges' := (scorePose_edges LETHAL_OBSTACLE NO_INFORMATION self costmap_).
Local Abbreviation on_edge p0 p1 :=
  (fun c : Z * Z => exists cells, edge_cells costmap_ (p0, p1) cells /\ In c cells).
Local Abbreviation on_edges vertices :=
  (fun c : Z * Z => exists e cells,
       In e (consecutive vertices) /\ edge_cells costmap_ e cells /\ In c cells).

(** *** Whatever the outcome *)

Lemma looks_up_cells (cells : list (Z * Z)) (line_cost : Z) :
  Forall (looks_up (fun c => In c cells)) (events (cells_cost' cells line_cost)).
Proof.
  revert line_cost. induction cells as [| c rest IH]; intros line_cost;
    [constructor |].
  cbn [cells_cost]. apply events_bind_forall.
  - rewrite (pointCost_eq _ _ _ _ Hcostmap).
    assert (looks_up (fun c' => In c' (c :: rest))
              (GetCost (wrap_unsigned (fst c)) (wrap_unsigned (snd c)))) as Hc
      by (exists c; split; [left; reflexivity | reflexivity]).
    destruct (is_sentinel _ _ _); cbn [events fst]; repeat constructor; exact Hc.
  - intros pc _. apply (looks_up_weaken (fun c' => In c' rest)); [| apply IH].
    intros c' Hc'. right. exact Hc'.
Qed.

Lemma looks_up_vertexToMap (Q : Z * Z -> Prop) (p : Point) (msg : string) :
  Forall (looks_up Q) (events (vertexToMap self costmap_ p msg)).
Proof.
  unfold vertexToMap.
  destruct (worldToMap costmap_ (point_x p) (point_y p)); repeat constructor.
Qed.

Lemma looks_up_edge (p0 p1 : Point) (msg0 msg1 : string) :
  Forall (looks_up (on_edge p0 p1)) (events (edge_cost' p0 p1 msg0 msg1)).
Proof.
  unfold edge_cost.
  apply events_bind_forall; [apply looks_up_vertexToMap | intros c0 H0].
  apply events_bind_forall; [apply looks_up_vertexToMap | intros c1 H1].
  apply vertexToMap_return in H0, H1. rewrite lineCost_cells.
  eapply looks_up_weaken; [| apply looks_up_cells].
  intros c Hc. eexists. split; [| exact Hc].
  exists c0, c1. repeat split; try assumption. apply rasterize_line_cells.
Qed.

Lemma looks_up_edges_cost (vertices : @Footprint D) (footprint_cost : Z) :
  Forall (looks_up (on_edges vertices)) (events (edges_cost' vertices footprint_cost)).
Proof.
  revert footprint_cost.
  induction vertices as [| p0 [| p1 rest] IH]; intros footprint_cost;
    try constructor.
  rewrite edges_cost_step. apply events_bind_forall.
  - eapply looks_up_weaken; [| apply looks_up_edge].
    intros c (cells & Hcells & Hc). exists (p0, p1), cells.
    split; [left; reflexivity | split; assumption].
  - intros line_cost _. eapply looks_up_weaken; [| apply IH].
    intros c (e & cells & He & Hcells & Hc). exists e, cells.
    split; [right; exact He | split; assumption].
Qed.

Lemma looks_up_edges (footprint : @Footprint D) :
  Z.of_nat (List.length footprint) <= 2 ^ 32 ->
  Forall (looks_up (boundary_cell costmap_ footprint)) (events (edges' footprint)).
Proof.
  intros Hsize. destruct footprint as [| p rest]; [constructor |].
  rewrite edges_closed_form by (discriminate || exact Hsize).
  apply events_bind_forall.
  - eapply looks_up_weaken; [| apply looks_up_edges_cost].
    intros c (e & cells & He & Hcells & Hc). exists e, cells.
    split; [| split; assumption].
    unfold boundary_edges. apply in_or_app. left. exact He.
  - intros footprint_cost _. apply events_bind_forall; [| intros; constructor].
    eapply looks_up_weaken; [| apply looks_up_edge].
    intros c (cells & Hcells & Hc). eexists; exists cells.
    split; [| split; [exact Hcells | exact Hc]].
    unfold boundary_edges. apply in_or_app. right. left.
    destruct rest; reflexivity.
Qed.

(** *** On a normal return *)

Lemma cells_cost_return_events (cells : list (Z * Z)) (line_cost v : Z) :
  result (cells_cost' cells line_cost) = Return v ->
  events (cells_cost' cells line_cost) = map lookup cells.
Proof.
  revert line_cost. induction cells as [| c rest IH]; intros line_cost;
    [reflexivity |].
  cbn [cells_cost]. rewrite result_bind, events_bind, (pointCost_eq _ _ _ _ Hcostmap).
  destruct (is_sentinel _ _ _); cbn [result events fst snd]; [discriminate |].
  intros Hr. rewrite (IH _ Hr). reflexivity.
Qed.

Lemma edge_cost_return_events (p0 p1 : Point) (msg0 msg1 : string) (v : Z) :
  result (edge_cost' p0 p1 msg0 msg1) = Return v ->
  exists cells,
    edge_cells costmap_ (p0, p1) cells /\
    events (edge_cost' p0 p1 msg0 msg1) = map lookup cells.
Proof.
  unfold edge_cost, vertexToMap.
  destruct (worldToMap costmap_ (point_x p0) (point_y p0)) as [c0 |] eqn:H0;
    [| discriminate].
  run_ret.
  destruct (worldToMap costmap_ (point_x p1) (point_y p1)) as [c1 |] eqn:H1;
    [| discriminate].
  run_ret. rewrite lineCost_cells. intros Hr.
  exists (line_cells (to_int (fst c0)) (to_int (snd c0))
                     (to_int (fst c1)) (to_int (snd c1))).
  split; [| apply (cells_cost_return_events _ _ _ Hr)].
  exists c0, c1. repeat split; try assumption. apply rasterize_line_cells.
Qed.

Lemma edges_cost_return_events (vertices : @Footprint D) (footprint_cost v : Z) :
  result (edges_cost' vertices footprint_cost) = Return v ->
  exists cells,
    Forall2 (edge_cells costmap_) (consecutive vertices) cells /\
    events (edges_cost' vertices footprint_cost) = map lookup (List.concat cells).
Proof.
  revert footprint_cost.
  induction vertices as [| p0 [| p1 rest] IH]; intros footprint_cost;
    try (intros _; exists []; split; [constructor | reflexivity]).
  rewrite edges_cost_step, result_bind, events_bind.
  destruct (result (edge_cost' p0 p1 _ _)) as [line_cost | |] eqn:Hedge;
    try discriminate.
  intros Hr.
  destruct (edge_cost_return_events _ _ _ _ _ Hedge) as (cells & Hcells & ->).
  destruct (IH _ Hr) as (rest_cells & Hrest & ->).
  exists (cells :: rest_cells). split; [constructor; assumption |].
  cbn [List.concat]. rewrite map_app. reflexivity.
Qed.

Lemma edges_return_events (footprint : @Footprint D) (v : Z) :
  result (edges' footprint) = Return v ->
  exists cells,
    Forall2 (edge_cells costmap_) (boundary_edges footprint) cells /\
    events (edges' footprint) = map lookup (List.concat cells).
Proof.
  intros Hr. destruct (edges_return_size _ _ _ _ _ _ Hr) as [Hne Hsize].
  rewrite (edges_closed_form _ _ _ _ _ Hne Hsize) in *.
  rewrite result_bind in Hr. rewrite events_bind.
  destruct (result (edges_cost' footprint 0)) as [footprint_cost | |] eqn:Hloop;
    try discriminate.
  rewrite result_bind in Hr. rewrite events_bind.
  destruct (result (edge_cost' _ _ _ _)) as [line_cost | |] eqn:Hclose;
    try discriminate.
  destruct (edges_cost_return_events _ _ _ Hloop) as (cells & Hcells & ->).
  destruct (edge_cost_return_events _ _ _ _ _ Hclose) as (closing & Hclosing & ->).
  exists (cells ++ [closing]). split.
  - destruct footprint as [| p rest]; [contradiction |].
    replace (last (p :: rest) (hd _ (p :: rest))) with (last rest p) in Hclosing
      by (destruct rest; reflexivity).
    unfold boundary_edges. apply Forall2_app; [exact Hcells |].
    constructor; [exact Hclosing | constructor].
  - cbn [events ret fst]. rewrite app_nil_r, concat_app, map_app.
    cbn [List.concat]. rewrite app_nil_r. reflexivity.
Qed.

End Lookups.

(** X7.  A normal return of [scorePose] has looked up the rasterized cells
    of the boundary edges, edge after edge and cell after cell, each with
    one [getCost]; it has logged nothing and read nothing else.  A vertex
    cell is looked up once for each of the two edges that meet there. *)
Theorem scorePose_return_lookups {D : Type} {ops : DoubleOps D}
  (LETHAL_OBSTACLE NO_INFORMATION : Z) (self : @Collaborators D)
  (pose : Pose2D) (v : Z) :
  result (scorePose LETHAL_OBSTACLE NO_INFORMATION self pose) = Return v ->
  exists costmap_ footprint cells,
    laid_down self pose costmap_ footprint /\
    Forall2 (edge_cells costmap_) (boundary_edges footprint) cells /\
    events (scorePose LETHAL_OBSTACLE NO_INFORMATION self pose) =
      map lookup (List.concat cells).
Proof.
  intros Hr.
  destruct (scorePose_return _ _ _ pose v Hr) as (cm & fp & Hlaid & Hedges).
  pose proof (laid_down_costmap _ _ _ _ Hlaid) as Hcm.
  destruct (edges_return_events _ _ _ _ Hcm _ _ Hedges) as (cells & Hcells & Hev).
  exists cm, fp, cells. split; [exact Hlaid | split; [exact Hcells |]].
  rewrite (scorePose_laid_down_eq _ _ _ _ _ _ Hlaid). exact Hev.
Qed.

(** X8.  Whatever the outcome, [scorePose] reads the costmap on the
    boundary only: every [getCost] it performs comes after the costmap, the
    cell of the pose, the footprint and the robot pose have been obtained,
    and reads a cell rasterized on a boundary edge of the projected
    footprint (for a footprint whose size fits the 32-bit counter of the
    loop).  The cell of the pose itself and the interior of the polygon are
    not looked up. *)
Theorem scorePose_lookups_on_boundary {D : Type} {ops : DoubleOps D}
  (LETHAL_OBSTACLE NO_INFORMATION : Z) (self : @Collaborators D)
  (pose : Pose2D) (mx my : Z) :
  (forall provided, getFootprint self = Some provided ->
     Z.of_nat (List.length provided) <= 2 ^ 32) ->
  In (GetCost mx my) (events (scorePose LETHAL_OBSTACLE NO_INFORMATION self pose)) ->
  exists costmap_ footprint c,
    laid_down self pose costmap_ footprint /\
    boundary_cell costmap_ footprint c /\
    mx = wrap_unsigned (fst c) /\ my = wrap_unsigned (snd c).
Proof.
  intros Hsize Hin.
  destruct (scorePose_outcome LETHAL_OBSTACLE NO_INFORMATION self pose)
    as [(w & _ & E) | (cm & Hcm & [(_ & E) | [(_ & _ & E) | [(_ & _ & _ & _ & fmt & w & E) | (fp & Hlaid & E)]]])];
    rewrite E in Hin; cbn [events fst In] in Hin;
    try (destruct Hin as [Hin | []]; discriminate Hin); try contradiction.
  destruct (laid_down_size _ _ _ _ Hlaid) as (provided & Hfp & Hlen).
  assert (Z.of_nat (List.length fp) <= 2 ^ 32) as Hle
    by (rewrite Hlen; apply Hsize, Hfp).
  pose proof (looks_up_edges LETHAL_OBSTACLE NO_INFORMATION self cm Hcm fp Hle) as Hall.
  destruct (proj1 (Forall_forall _ _) Hall _ Hin) as (c & Hc & [= -> ->]).
  exists cm, fp, c. split; [exact Hlaid | split; [exact Hc | split; reflexivity]].
Qed.

(** ** Concrete runs of the further properties *)

Lemma scene_bounded (cost : Z -> Z -> Z) : bounded_map (Scene.grid cost) 10 10.
Proof.
  intros wx wy c. cbn [worldToMap Scene.grid].
  destruct (Z.leb_spec 0 wx), (Z.ltb_spec wx 10), (Z.leb_spec 0 wy),
    (Z.ltb_spec wy 10); cbn [andb]; try discriminate.
  intros [= <-]. cbn [fst snd]. lia.
Qed.

(** The square around (5, 5) on graded costs stays inside the 10 x 10
    grid. *)
Lemma scorePose_reads_inside_map_witness :
  Forall (inside_map 10 10)
         (events (Scene.score (Scene.checker Scene.slope (Some Scene.square))
                              (Scene.pose 5 5 0))) /\
  Forall (inside_map 10 10)
         (events (Scene.collision_free
                    (Scene.checker Scene.slope (Some Scene.square))
                    (Scene.pose 5 5 0))).
Proof.
  apply (scorePose_reads_inside_map
           Scene.LETHAL_OBSTACLE Scene.NO_INFORMATION
           (Scene.checker Scene.slope (Some Scene.square))
           (Scene.grid Scene.slope) 10 10 (Scene.pose 5 5 0)).
  - reflexivity.
  - lia.
  - lia.
  - apply scene_bounded.
Defined.

(** The boundary of the square around (5, 5) does not meet the cell (5, 5)
    on which the robot stands. *)
Lemma scene_centre_off_boundary (value : Z) (c : Z * Z) :
  boundary_cell (Scene.grid Scene.free_space)
                (projected Scene.square 0 0 0 (Scene.pose 5 5 0)) c ->
  cost_at (recosted (Scene.grid Scene.free_space) (Scene.one_cell 5 5 value)) c =
  cost_at (Scene.grid Scene.free_space) c.
Proof.
  intros (e & cells & He & (c0 & c1 & H0 & H1 & Hr) & Hc).
  vm_compute in He.
  destruct He as [<- | [<- | [<- | [<- | []]]]];
    vm_compute in H0, H1; injection H0 as <-; injection H1 as <-;
    vm_compute in Hr; injection Hr as <-;
    cbn [In] in Hc; destruct Hc as [<- | [<- | [<- | []]]]; reflexivity.
Qed.

(** A lethal cell under the robot, inside the square, is not seen. *)
Lemma scorePose_reads_boundary_only_witness :
  Scene.score (with_costs (Scene.checker Scene.free_space (Some Scene.square))
                          (Scene.grid Scene.free_space) (Scene.one_cell 5 5 254))
              (Scene.pose 5 5 0) =
    Scene.score (Scene.checker Scene.free_space (Some Scene.square)) (Scene.pose 5 5 0) /\
  Scene.collision_free
    (with_costs (Scene.checker Scene.free_space (Some Scene.square))
                (Scene.grid Scene.free_space) (Scene.one_cell 5 5 254))
    (Scene.pose 5 5 0) =
    Scene.collision_free (Scene.checker Scene.free_space (Some Scene.square))
                         (Scene.pose 5 5 0).
Proof.
  apply (scorePose_reads_boundary_only
           Scene.LETHAL_OBSTACLE Scene.NO_INFORMATION
           (Scene.checker Scene.free_space (Some Scene.square))
           (Scene.grid Scene.free_space) (Scene.one_cell 5 5 254) (Scene.pose 5 5 0)
           (projected Scene.square 0 0 0 (Scene.pose 5 5 0))).
  - apply scene_laid_down.
  - vm_compute. discriminate.
  - apply scene_centre_off_boundary.
Defined.

(** The square around (5, 5) in free space is found free of collision. *)
Lemma isCollisionFree_verdict_witness :
  (result (Scene.collision_free (Scene.checker Scene.free_space (Some Scene.square))
                                (Scene.pose 5 5 0)) = Return true <->
   ~ vertex_off_grid (Scene.grid Scene.free_space)
                     (projected Scene.square 0 0 0 (Scene.pose 5 5 0)) /\
   ~ sentinel_on_boundary Scene.LETHAL_OBSTACLE Scene.NO_INFORMATION
                          (Scene.grid Scene.free_space)
                          (projected Scene.square 0 0 0 (Scene.pose 5 5 0))) /\
  (result (Scene.collision_free (Scene.checker Scene.free_space (Some Scene.square))
                                (Scene.pose 5 5 0)) = Return false <->
   ~ (~ vertex_off_grid (Scene.grid Scene.free_space)
                        (projected Scene.square 0 0 0 (Scene.pose 5 5 0)) /\
      ~ sentinel_on_boundary Scene.LETHAL_OBSTACLE Scene.NO_INFORMATION
                             (Scene.grid Scene.free_space)
                             (projected Scene.square 0 0 0 (Scene.pose 5 5 0)))).
Proof.
  apply (isCollisionFree_verdict
           Scene.LETHAL_OBSTACLE Scene.NO_INFORMATION
           (Scene.checker Scene.free_space (Some Scene.square)) (Scene.pose 5 5 0)
           (Scene.grid Scene.free_space)
           (projected Scene.square 0 0 0 (Scene.pose 5 5 0))).
  - apply scene_laid_down.
  - vm_compute. discriminate.
  - vm_compute. discriminate.
Defined.

(** From free space to graded costs the score of the square grows from 0
    to 60. *)
Lemma scorePose_monotone_in_costs_witness : 0 <= 60.
Proof.
  apply (scorePose_monotone_in_costs
           Scene.LETHAL_OBSTACLE Scene.NO_INFORMATION
           (Scene.checker Scene.free_space (Some Scene.square)) (Scene.pose 5 5 0)
           (Scene.grid Scene.free_space)
           (projected Scene.square 0 0 0 (Scene.pose 5 5 0)) Scene.slope 0 60).
  - apply scene_laid_down.
  - intros c _. unfold cost_at, stored_cost, to_unsigned_char. cbn [getCost recosted].
    change (Scene.free_space _ _ mod 2 ^ 8) with 0.
    apply Z.mod_pos_bound. lia.
  - vm_compute. reflexivity.
  - vm_compute. reflexivity.
Defined.

(** The square started at its second vertex. *)
Lemma scorePose_any_first_vertex_witness :
  result (Scene.score (Scene.checker Scene.slope (Some Scene.square))
                      (Scene.pose 5 5 0)) = Return 60 <->
  result (Scene.score
            (Scene.checker Scene.slope
               (Some [Scene.point 1 (-1); Scene.point 1 1; Scene.point (-1) 1;
                      Scene.point (-1) (-1)]))
            (Scene.pose 5 5 0)) = Return 60.
Proof.
  apply (scorePose_any_first_vertex
           Scene.LETHAL_OBSTACLE Scene.NO_INFORMATION (Scene.grid Scene.slope)
           (Scene.checker Scene.slope (Some Scene.square))
           (Scene.checker Scene.slope
              (Some [Scene.point 1 (-1); Scene.point 1 1; Scene.point (-1) 1;
                     Scene.point (-1) (-1)]))
           (Scene.pose 5 5 0)
           [Scene.point 4 4]
           [Scene.point 6 4; Scene.point 6 6; Scene.point 4 6] 60).
  - apply (scene_laid_down Scene.slope Scene.square).
  - apply (scene_laid_down Scene.slope
             [Scene.point 1 (-1); Scene.point 1 1; Scene.point (-1) 1;
              Scene.point (-1) (-1)]).
Defined.

(** The twelve lookups of the square around (5, 5): three per edge, the
    corners twice. *)
Lemma scorePose_return_lookups_witness :
  exists costmap_ footprint cells,
    laid_down (Scene.checker Scene.slope (Some Scene.square)) (Scene.pose 5 5 0)
              costmap_ footprint /\
    Forall2 (edge_cells costmap_) (boundary_edges footprint) cells /\
    events (Scene.score (Scene.checker Scene.slope (Some Scene.square))
                        (Scene.pose 5 5 0)) =
      map lookup (List.concat cells).
Proof.
  apply (scorePose_return_lookups
           Scene.LETHAL_OBSTACLE Scene.NO_INFORMATION
           (Scene.checker Scene.slope (Some Scene.square)) (Scene.pose 5 5 0) 60).
  vm_compute. reflexivity.
Defined.

(** The lookup of the cell (6, 5), on the right side of the square. *)
Lemma scorePose_lookups_on_boundary_witness :
  exists costmap_ footprint c,
    laid_down (Scene.checker Scene.slope (Some Scene.square)) (Scene.pose 5 5 0)
              costmap_ footprint /\
    boundary_cell costmap_ footprint c /\
    6 = wrap_unsigned (fst c) /\ 5 = wrap_unsigned (snd c).
Proof.
  apply (scorePose_lookups_on_boundary
           Scene.LETHAL_OBSTACLE Scene.NO_INFORMATION
           (Scene.checker Scene.slope (Some Scene.square)) (Scene.pose 5 5 0) 6 5).
  - intros provided [= <-]. vm_compute. discriminate.
  - vm_compute. tauto.
Defined.
